(** * The persistent application state store of [src/hooks/usePersistentState.ts]

    The model follows that source file top to bottom:

    - [Props], [Js]: the JavaScript values that reach the hook (what
      [JSON.parse] produces, plus [undefined] and the built-in functions),
      with [typeof], truthiness, property access through
      [Object.prototype], assignment and object spread;
    - [Merge]: [mergeDefaults] (lines 7-29) as a function on those values;
    - [Heap]: the same function over a store of objects with identity, for
      the statements about copying and aliasing;
    - [Page]: what the hook sees and does of the page around it;
    - [Load]: the lazy [useState] initialiser (lines 38-56);
    - [Persist]: the debounced write-back effect (lines 58-88) as a machine
      driven by renders and by the timer queue of the window;
    - [Demo]: sample pages.

    The properties follow: [MergeProps] (reconciliation), [LoadProps] (load
    precedence), [PersistProps] (debounce and failure containment),
    [HeapProps] (copying and sharing) and [Refine] (the two readings of
    [mergeDefaults] agree); then [MergeMore], [LoadMore], [Reload],
    [PersistMore], [StateProps] and [ArrayProps] on the same definitions.

    Two smaller models stand beside the store: [Audio], the sound-effect
    player of [src/unnamed/part_000], with [AudioProps]; and [Journal], the
    journal entry of [src/services/aiService.ts], with [JournalProps]. *)

From stdpp Require Import base option list gmap strings.
From Stdlib Require Import ZArith Lia Bool.
From Stdlib Require Import Floats.PrimFloat.
From Stdlib Require Import Strings.String Strings.Ascii.
From Stdlib Require Import Numbers.DecimalString Numbers.DecimalNat.

Open Scope string_scope.
Open Scope list_scope.

#[local] Set Warnings "-register-all".

(* ===================================================================== *)
(** * Property lists *)
(* ===================================================================== *)

(** The own enumerable properties of an object, in enumeration order, for
    any type of property values.  The objects are those an object literal,
    a spread or [JSON.parse] makes: their prototype is [Object.prototype]. *)
Module Props.

(** The methods every such object inherits from [Object.prototype].  With
    the accessor [__proto__] they are all its members; none of them is
    enumerable. *)
Definition Object_prototype_methods : list string :=
  ["constructor"; "__defineGetter__"; "__defineSetter__"; "hasOwnProperty";
   "__lookupGetter__"; "__lookupSetter__"; "isPrototypeOf";
   "propertyIsEnumerable"; "toString"; "valueOf"; "toLocaleString"].

(** Whether [o[key]] finds something on an object that has no own property
    [key]. *)
Definition inherits (key : string) : bool :=
  String.eqb key "__proto__" || existsb (String.eqb key) Object_prototype_methods.

(** An array index: the canonical decimal numeral of an integer below
    [2^32 - 1]. *)
Definition array_index (key : string) : option N :=
  match NilEmpty.uint_of_string key with
  | Some u =>
      let n := N.of_uint u in
      if String.eqb (NilEmpty.string_of_uint (N.to_uint n)) key
         && (n <? 4294967295)%N
      then Some n
      else None
  | None => None
  end.

Section Props.
Context {A : Type}.

(** The own property [key], if there is one. *)
Fixpoint own (o : list (string * A)) (key : string) : option A :=
  match o with
  | [] => None
  | (k, v) :: o' => if String.eqb k key then Some v else own o' key
  end.

(** What [o[key]] finds: an own property, or else a member of
    [Object.prototype] (one of its methods, or through the accessor
    [__proto__] the prototype itself), or nothing. *)
Variant member : Type :=
  | Own (v : A)
  | Method (name : string)
  | Prototype
  | Absent.

Definition lookup (o : list (string * A)) (key : string) : member :=
  match own o key with
  | Some v => Own v
  | None =>
      if String.eqb key "__proto__" then Prototype
      else if existsb (String.eqb key) Object_prototype_methods then Method key
      else Absent
  end.

(** [o[key] = v] where [key] is an own property: it keeps its place. *)
Fixpoint update (o : list (string * A)) (key : string) (v : A) : list (string * A) :=
  match o with
  | [] => []
  | (k, w) :: o' =>
      if String.eqb k key then (k, v) :: o' else (k, w) :: update o' key v
  end.

(** A new property named by the array index [n]: array indices are
    enumerated first, in ascending order. *)
Fixpoint add_index (o : list (string * A)) (key : string) (n : N) (v : A)
  : list (string * A) :=
  match o with
  | [] => [(key, v)]
  | (k, w) :: o' =>
      match array_index k with
      | Some m =>
          if (m <? n)%N then (k, w) :: add_index o' key n v
          else (key, v) :: (k, w) :: o'
      | None => (key, v) :: (k, w) :: o'
      end
  end.

(** A new property: among the array indices when it is named by one, last
    otherwise. *)
Definition add (o : list (string * A)) (key : string) (v : A) : list (string * A) :=
  match array_index key with
  | Some n => add_index o key n v
  | None => o ++ [(key, v)]
  end.

(** [o[key] = v].  An own property is replaced.  Where there is none, the
    name [__proto__] reaches the setter of [Object.prototype], which adds
    no property; any other name becomes a new own property, the methods of
    [Object.prototype] being writable.  (The setter replaces the prototype
    of [o] when [v] is an object.  A property list does not hold the
    prototype: [lookup] goes on reading [Object.prototype].) *)
Definition assign (o : list (string * A)) (key : string) (v : A) : list (string * A) :=
  match own o key with
  | Some _ => update o key v
  | None => if String.eqb key "__proto__" then o else add o key v
  end.

(** The property name of an array index. *)
Definition index_key (i : nat) : string :=
  NilEmpty.string_of_uint (Nat.to_uint i).

(** The elements of a sequence under their indices, from index [i] on. *)
Fixpoint indexed (i : nat) (xs : list A) : list (string * A) :=
  match xs with
  | [] => []
  | x :: xs' => (index_key i, x) :: indexed (S i) xs'
  end.

End Props.
End Props.

(* ===================================================================== *)
(** * JavaScript values *)
(* ===================================================================== *)

Module Js.
Import Props.

(** A number is an IEEE binary64, as in JavaScript.  An object is the list
    of its own enumerable properties in enumeration order; a sequence is
    the list of its elements; a function is a built-in one, known by its
    name. *)
Inductive value : Type :=
  | VUndefined
  | VNull
  | VBool (b : bool)
  | VNum (n : float)
  | VStr (s : string)
  | VFun (name : string)
  | VArr (elems : list value)
  | VObj (fields : list (string * value)).

Abbreviation props := (list (string * value)).

(** [typeof v] *)
Definition typeof (v : value) : string :=
  match v with
  | VUndefined => "undefined"
  | VNull => "object"
  | VBool _ => "boolean"
  | VNum _ => "number"
  | VStr _ => "string"
  | VFun _ => "function"
  | VArr _ => "object"
  | VObj _ => "object"
  end.

(** [!!v]: [undefined], [null], [false], [0], [-0], [NaN] and the empty
    string are falsy, everything else (every object, every array, every
    function) is truthy. *)
Definition truthy (v : value) : bool :=
  match v with
  | VUndefined | VNull => false
  | VBool b => b
  | VNum n => negb (PrimFloat.eqb n 0%float || negb (PrimFloat.eqb n n))
  | VStr s => negb (String.eqb s "")
  | VFun _ | VArr _ | VObj _ => true
  end.

(** [v === undefined] *)
Definition is_undefined (v : value) : bool :=
  match v with
  | VUndefined => true
  | _ => false
  end.

(** [v === null] *)
Definition is_null (v : value) : bool :=
  match v with
  | VNull => true
  | _ => false
  end.

(** [v === undefined || v === null] *)
Definition is_nullish (v : value) : bool := is_undefined v || is_null v.

(** [Array.isArray(v)] *)
Definition isArray (v : value) : bool :=
  match v with
  | VArr _ => true
  | _ => false
  end.

(** The own property [key] of [o], [undefined] when there is none. *)
Definition get_own (o : props) (key : string) : value :=
  default VUndefined (own o key).

(** [o[key]]: the own property; where there is none, what
    [Object.prototype] has under that name (a method, or under [__proto__]
    the prototype itself, an object without enumerable properties);
    [undefined] otherwise. *)
Definition get (o : props) (key : string) : value :=
  match lookup o key with
  | Own v => v
  | Method name => VFun name
  | Prototype => VObj []
  | Absent => VUndefined
  end.

(** Fields none of whose names is the name of a member of
    [Object.prototype]. *)
Definition plain_keys (fields : props) : bool :=
  forallb (fun kv => negb (inherits kv.1)) fields.

(** A structure none of whose field names, at any depth, is the name of a
    member of [Object.prototype]: on its names [get] and [get_own]
    agree. *)
Fixpoint plain_names (v : value) : bool :=
  match v with
  | VObj fields =>
      forallb (fun kv => negb (inherits kv.1) && plain_names kv.2) fields
  | _ => true
  end.

(** [{ ...v }]: the own enumerable properties of [v], shallowly.  An array
    contributes its elements under their indices, a string its characters,
    every other primitive nothing. *)
Definition spread (v : value) : props :=
  match v with
  | VObj fields => fields
  | VArr elems => indexed 0 elems
  | VStr s => indexed 0 (map (fun c => VStr (String c "")) (list_ascii_of_string s))
  | _ => []
  end.

(** A value is well formed when no object in it lists a property name
    twice, which every JavaScript object satisfies. *)
Fixpoint wf (v : value) : bool :=
  match v with
  | VArr elems => forallb wf elems
  | VObj fields =>
      bool_decide (NoDup (fields.*1)) && forallb (fun kv => wf kv.2) fields
  | _ => true
  end.

(** [path v p]: the value reached from [v] by reading the fields named in
    [p] one after the other, descending through named-field structures
    only.  Sequences are atomic: no field path leads into one. *)
Fixpoint path (v : value) (p : list string) : option value :=
  match p with
  | [] => Some v
  | k :: p' =>
      match v with
      | VObj fields =>
          match own fields k with
          | Some w => path w p'
          | None => None
          end
      | _ => None
      end
  end.

(** [read v p]: the member expression [v.k1.k2...kn] over own properties,
    [undefined] as soon as a step finds nothing.  An array answers to its
    indices; a primitive has no own field. *)
Fixpoint read (v : value) (p : list string) : value :=
  match p with
  | [] => v
  | k :: p' =>
      match v with
      | VObj _ | VArr _ => read (get_own (spread v) k) p'
      | _ => VUndefined
      end
  end.

End Js.

(* ===================================================================== *)
(** * Reconciliation: [mergeDefaults] *)
(* ===================================================================== *)

Module Merge.
Import Props Js.

(** The body of the [for (const key in defaults)] loop, lines 14-25;
    [recur] is [mergeDefaults(loadedValue, defaultValue)] of line 24. *)
Definition merge_field (recur : value -> value)
    (key : string) (defaultValue : value) (result : props) : props :=
  let loadedValue := get result key in
  if is_undefined loadedValue || is_null loadedValue then
    assign result key defaultValue
  else if String.eqb (typeof defaultValue) "object"
          && negb (is_null defaultValue)
          && negb (isArray defaultValue) then
    assign result key (recur loadedValue)
  else
    result.

(** Lines 7-29.  The loop runs over the own enumerable properties of
    [defaults]: the fields of an object, the indices of an array.  The type
    [T extends object] leaves no other case; a string would have its
    characters as properties, none of them an object, and the remaining
    primitives have none. *)
Fixpoint mergeDefaults (loaded defaults : value) {struct defaults} : value :=
  if negb (truthy loaded) || negb (String.eqb (typeof loaded) "object") then
    VObj (spread defaults)
  else
    let result := spread loaded in
    match defaults with
    | VObj fields =>
        VObj (fold_left
                (fun result kd =>
                   merge_field (fun lv => mergeDefaults lv kd.2) kd.1 kd.2 result)
                fields result)
    | VArr elems =>
        VObj (fold_left
                (fun ir d =>
                   (S ir.1,
                    merge_field (fun lv => mergeDefaults lv d) (index_key ir.1) d ir.2))
                elems (0, result)).2
    | _ =>
        VObj (fold_left
                (fun result kd => merge_field (fun lv => lv) kd.1 kd.2 result)
                (spread defaults) result)
    end.

End Merge.

(* ===================================================================== *)
(** * Reconciliation over objects with identity *)
(* ===================================================================== *)

(** In JavaScript an object is a reference: [{ ...defaults }] makes one new
    object whose fields hold the values of [defaults], and a value that is
    itself an object is held by reference.  This module runs lines 7-29 on
    a store of objects, so that what is copied and what is shared can be
    told apart. *)
Module Heap.
Import Props.

Abbreviation loc := nat.

(** The values of [Js.value], an object or an array being a reference
    into the store.  [Object.prototype] is an object of its own, outside
    the store. *)
Inductive value : Type :=
  | VUndefined
  | VNull
  | VBool (b : bool)
  | VNum (n : float)
  | VStr (s : string)
  | VFun (name : string)
  | VObjectPrototype
  | VRef (l : loc).

Inductive cell : Type :=
  | CObj (fields : list (string * value))
  | CArr (elems : list value).

(** The store: location [l] is the [l]-th object ever made. *)
Abbreviation heap := (list cell).

Definition typeof (v : value) : string :=
  match v with
  | VUndefined => "undefined"
  | VNull => "object"
  | VBool _ => "boolean"
  | VNum _ => "number"
  | VStr _ => "string"
  | VFun _ => "function"
  | VObjectPrototype => "object"
  | VRef _ => "object"
  end.

Definition truthy (v : value) : bool :=
  match v with
  | VUndefined | VNull => false
  | VBool b => b
  | VNum n => negb (PrimFloat.eqb n 0%float || negb (PrimFloat.eqb n n))
  | VStr s => negb (String.eqb s "")
  | VFun _ | VObjectPrototype | VRef _ => true
  end.

Definition is_undefined (v : value) : bool :=
  match v with
  | VUndefined => true
  | _ => false
  end.

Definition is_null (v : value) : bool :=
  match v with
  | VNull => true
  | _ => false
  end.

Definition get_own (o : list (string * value)) (key : string) : value :=
  default VUndefined (own o key).

(** [o[key]], through the prototype chain. *)
Definition get (o : list (string * value)) (key : string) : value :=
  match lookup o key with
  | Own v => v
  | Method name => VFun name
  | Prototype => VObjectPrototype
  | Absent => VUndefined
  end.

Definition cell_props (c : cell) : list (string * value) :=
  match c with
  | CObj fields => fields
  | CArr elems => indexed 0 elems
  end.

(** Computations on the store; [None] when a reference leads nowhere or
    the recursion budget is used up. *)
Definition M (A : Type) : Type := heap -> option (A * heap).

#[export] Instance M_ret : MRet M := fun A a h => Some (a, h).

#[export] Instance M_bind : MBind M := fun A B f m h =>
  match m h with
  | Some (a, h') => f a h'
  | None => None
  end.

Definition fail {A} : M A := fun _ => None.

(** A new object. *)
Definition alloc (c : cell) : M loc :=
  fun h => Some (List.length h, h ++ [c]).

Definition load (l : loc) : M cell :=
  fun h => match h !! l with
           | Some c => Some (c, h)
           | None => None
           end.

Definition store (l : loc) (c : cell) : M unit :=
  fun h => match h !! l with
           | Some _ => Some (tt, <[l := c]> h)
           | None => None
           end.

(** [Array.isArray(v)] *)
Definition isArray (v : value) : M bool :=
  match v with
  | VRef l =>
      c ← load l;
      mret match c with CArr _ => true | CObj _ => false end
  | _ => mret false
  end.

(** The own enumerable properties [{ ...v }] copies and [for (key in v)]
    visits. *)
Definition own_props (v : value) : M (list (string * value)) :=
  match v with
  | VRef l => c ← load l; mret (cell_props c)
  | VStr s =>
      mret (indexed 0 (map (fun c => VStr (String c "")) (list_ascii_of_string s)))
  | _ => mret []
  end.

(** [{ ...v }] *)
Definition spread (v : value) : M loc :=
  fields ← own_props v; alloc (CObj fields).

(** [o[key]] for an object [o] made by a spread. *)
Definition get_prop (o : loc) (key : string) : M value :=
  c ← load o; mret (get (cell_props c) key).

(** [o[key] = v] for an object [o] of named fields. *)
Definition set_prop (o : loc) (key : string) (v : value) : M unit :=
  c ← load o;
  match c with
  | CObj fields => store o (CObj (assign fields key v))
  | CArr _ => fail
  end.

Fixpoint for_each {A} (xs : list A) (body : A -> M unit) : M unit :=
  match xs with
  | [] => mret tt
  | x :: xs' => body x;; for_each xs' body
  end.

(** Lines 7-29.  [budget] bounds the depth of the recursion, which the
    source leaves to the shape of its arguments. *)
Fixpoint mergeDefaults (budget : nat) (loaded defaults : value) : M value :=
  match budget with
  | 0 => fail
  | S budget =>
      if negb (truthy loaded) || negb (String.eqb (typeof loaded) "object") then
        copy ← spread defaults; mret (VRef copy)
      else
        result ← spread loaded;
        keys ← own_props defaults;
        for_each keys (fun kd =>
          let key := kd.1 in
          let defaultValue := kd.2 in
          loadedValue ← get_prop result key;
          if is_undefined loadedValue || is_null loadedValue then
            set_prop result key defaultValue
          else
            arr ← isArray defaultValue;
            if String.eqb (typeof defaultValue) "object"
               && negb (is_null defaultValue)
               && negb arr then
              merged ← mergeDefaults budget loadedValue defaultValue;
              set_prop result key merged
            else
              mret tt);;
        mret (VRef result)
  end.

(** [v.k1.k2...kn], following references. *)
Fixpoint read (h : heap) (v : value) (p : list string) : value :=
  match p with
  | [] => v
  | k :: p' =>
      match v with
      | VRef l =>
          match h !! l with
          | Some c => read h (get_own (cell_props c) k) p'
          | None => VUndefined
          end
      | _ => VUndefined
      end
  end.

(** [v.k1.k2...kn[key] = x]: an assignment to a field of the object that
    the path [p] leads to from [v]. *)
Definition write (h : heap) (v : value) (p : list string) (key : string) (x : value)
  : option heap :=
  match read h v p with
  | VRef l => snd <$> set_prop l key x h
  | _ => None
  end.

End Heap.

(* ===================================================================== *)
(** * The page the hook runs in *)
(* ===================================================================== *)

Module Page.
Import Js.

(** What a [catch] clause receives: [error instanceof DOMException] and
    [error.name]. *)
Inductive exn : Type :=
  | DOMException (name : string)
  | Error (name : string).

(** What the hook does to the page, in the order it does it. *)
Inductive event : Type :=
  | ConsoleLog (msg : string)
  | ConsoleError (msg : string)
  | ConsoleWarn (msg : string)
  | Alert (msg : string)
  | GetItem (key : string)
  | SetItem (key data : string) (thrown : option exn).

(** What the page answers.  The bootstrap slot is [undefined] when nothing
    was published; [getItem] and [JSON_parse] return or throw; [setItem]
    returns or throws depending on when it is called and with what. *)
Record page : Type := {
  INITIAL_APP_STATE : value;
  getItem : string -> exn + option string;
  JSON_parse : string -> exn + value;
  JSON_stringify : value -> string;
  setItem : nat -> string -> string -> option exn
}.

Definition is_write (e : event) : bool :=
  match e with SetItem _ _ _ => true | _ => false end.

Definition is_read (e : event) : bool :=
  match e with GetItem _ => true | _ => false end.

Definition is_alert (e : event) : bool :=
  match e with Alert _ => true | _ => false end.

Definition is_console (e : event) : bool :=
  match e with
  | ConsoleLog _ | ConsoleError _ | ConsoleWarn _ => true
  | _ => false
  end.

End Page.

(* ===================================================================== *)
(** * Load precedence: the [useState] initialiser *)
(* ===================================================================== *)

Module Load.
Import Js Merge Page.

(** A computation that logs what it does to the page and returns or
    throws. *)
Definition T (A : Type) : Type := list event * (exn + A).

#[local] Instance T_ret : MRet T := fun A a => ([], inr a).

#[local] Instance T_bind : MBind T := fun A B f m =>
  match m.2 with
  | inr a => (m.1 ++ (f a).1, (f a).2)
  | inl e => (m.1, inl e)
  end.

Definition emit (e : event) : T unit := ([e], inr tt).

Definition call {A} (e : event) (answer : exn + A) : T A := ([e], answer).

Definition throwing {A} (answer : exn + A) : T A := ([], answer).

(** [try { body } catch (error) { handler }] *)
Definition try_catch {A} (body : T A) (handler : exn -> T A) : T A :=
  match body.2 with
  | inr a => body
  | inl e => (body.1 ++ (handler e).1, (handler e).2)
  end.

(** Lines 38-56: the function passed to [useState]. *)
Definition initializer (pg : page) (key : string) (initialState : value) : T value :=
  try_catch
    (if truthy (INITIAL_APP_STATE pg) then
       emit (ConsoleLog "Loading state from portable data.js...");;
       mret (mergeDefaults (INITIAL_APP_STATE pg) initialState)
     else
       storedValue ← call (GetItem key) (getItem pg key);
       match storedValue with
       | Some text =>
           if negb (String.eqb text "") then
             loadedState ← throwing (JSON_parse pg text);
             mret (mergeDefaults loadedState initialState)
           else mret initialState
       | None => mret initialState
       end)
    (fun error =>
       emit (ConsoleError "Error reading state, falling back to initial.");;
       mret initialState).

End Load.

(* ===================================================================== *)
(** * Debounced persistence: the effect *)
(* ===================================================================== *)

(** The hook is driven from outside: React renders it and runs its effect,
    the window counts time and fires timers.  The conventions of the model:

    - time is counted in milliseconds from the first render;
    - an input [SetState] stands for a call of the state setter that React
      commits with a replaced state (a call that leaves the state identical
      gives no render and is no input), [SetKey] for a render with another
      [key]; the render, the cleanup of the previous effect and the run of
      the new one happen at one instant, no timer firing in between;
    - a timer fires when it is due, not later. *)
Module Persist.
Import Js Page.

(** The hook instance: the arguments and state of its last render, and its
    two refs.  [cleanup] tells whether the last run of the effect returned
    its cleanup function (line 83) or left through line 62. *)
Record instance : Type := {
  key : string;
  state : value;
  quotaErrorNotified : bool;
  saveTimeoutRef : option nat;
  cleanup : bool;
  mounted : bool
}.

(** A pending [setTimeout]: its handle, when it is due, and the [key] and
    [state] its callback closed over. *)
Record timer : Type := {
  handle : nat;
  due : nat;
  saved_key : string;
  saved_state : value
}.

(** The window: the clock in milliseconds, the timer queue, and the log of
    what happened. *)
Record window : Type := {
  now : nat;
  next_handle : nat;
  timers : list timer;
  log : list event
}.

Definition world : Type := instance * window.

Definition with_timers (ts : list timer) (w : window) : window :=
  {| now := now w; next_handle := next_handle w; timers := ts; log := log w |}.

Definition with_now (t : nat) (w : window) : window :=
  {| now := t; next_handle := next_handle w; timers := timers w; log := log w |}.

Definition record (e : event) (w : window) : window :=
  {| now := now w; next_handle := next_handle w; timers := timers w;
     log := log w ++ [e] |}.

(** [window.clearTimeout(h)] *)
Definition clearTimeout (h : nat) (w : window) : window :=
  with_timers (filter (fun t => handle t <> h) (timers w)) w.

(** [window.setTimeout(callback, delay)], with what [callback] closed
    over. *)
Definition setTimeout (k : string) (s : value) (delay : nat) (w : window)
  : nat * window :=
  (next_handle w,
   {| now := now w;
      next_handle := S (next_handle w);
      timers := timers w ++ [{| handle := next_handle w; due := now w + delay;
                                saved_key := k; saved_state := s |}];
      log := log w |}).

(** The coalescing window of line 81. *)
Definition delay : nat := 1000.

(** Line 73. *)
Definition is_quota (error : exn) : bool :=
  match error with
  | DOMException name =>
      String.eqb name "QuotaExceededError"
      || String.eqb name "NS_ERROR_DOM_QUOTA_REACHED"
  | Error _ => false
  end.

(** The texts of lines 75 and 77. *)
Definition quota_warning : string := "LocalStorage quota exceeded.".
Definition quota_alert : string :=
  "Storage limit exceeded. Your progress may not be saved unless you clear some chat history or images.".

(** Lines 69-80: the timer callback, run at time [at_]. *)
Definition callback (pg : page) (at_ : nat) (t : timer) (cw : world) : world :=
  let (c, w) := cw in
  let dataStr := JSON_stringify pg (saved_state t) in
  let thrown := setItem pg at_ (saved_key t) dataStr in
  let w := record (SetItem (saved_key t) dataStr thrown) w in
  match thrown with
  | None => (c, w)
  | Some error =>
      if is_quota error then
        if negb (quotaErrorNotified c) then
          let w := record (ConsoleWarn quota_warning) w in
          let c := {| key := key c; state := state c;
                      quotaErrorNotified := true;
                      saveTimeoutRef := saveTimeoutRef c;
                      cleanup := cleanup c; mounted := mounted c |} in
          let w := record (Alert quota_alert) w in
          (c, w)
        else (c, w)
      else (c, w)
  end.

(** Lines 64-66 and 84-86. *)
Definition clear_pending (c : instance) (w : window) : window :=
  match saveTimeoutRef c with
  | Some h => clearTimeout h w
  | None => w
  end.

(** Lines 61-88: one run of the effect. *)
Definition effect (cw : world) : world :=
  let (c, w) := cw in
  if quotaErrorNotified c then
    ({| key := key c; state := state c; quotaErrorNotified := quotaErrorNotified c;
        saveTimeoutRef := saveTimeoutRef c; cleanup := false; mounted := mounted c |},
     w)
  else
    let w := clear_pending c w in
    let (h, w) := setTimeout (key c) (state c) delay w in
    ({| key := key c; state := state c; quotaErrorNotified := quotaErrorNotified c;
        saveTimeoutRef := Some h; cleanup := true; mounted := mounted c |},
     w).

(** Lines 83-87, when the previous run of the effect returned them. *)
Definition run_cleanup (cw : world) : world :=
  let (c, w) := cw in
  if cleanup c then (c, clear_pending c w) else cw.

(** A render that React commits with a changed dependency: the cleanup of
    the previous effect, then the effect. *)
Definition commit (k : string) (s : value) (cw : world) : world :=
  let (c, w) := run_cleanup cw in
  effect ({| key := k; state := s; quotaErrorNotified := quotaErrorNotified c;
             saveTimeoutRef := saveTimeoutRef c; cleanup := cleanup c;
             mounted := mounted c |}, w).

(** The argument of the state setter: a value, or a function of the
    previous state. *)
Inductive action : Type :=
  | Value (v : value)
  | Updater (f : value -> value).

Definition next_state (a : action) (s : value) : value :=
  match a with
  | Value v => v
  | Updater f => f s
  end.

(** What happens to a mounted hook.  [SetState] is a call of the setter
    that replaces the state, so that React renders again and re-runs the
    effect; [SetKey] is a render with another [key]; [Elapse] lets the
    clock advance, the timers that come due firing when they are due, in
    the order they were armed. *)
Inductive input : Type :=
  | SetState (a : action)
  | SetKey (k : string)
  | Elapse (ms : nat)
  | Unmount.

Definition is_due (t_now : nat) (t : timer) : bool := Nat.leb (due t) t_now.

Definition elapse (pg : page) (ms : nat) (cw : world) : world :=
  let (c, w) := cw in
  let t_end := now w + ms in
  let ready := filter (fun t => is_due t_end t = true) (timers w) in
  let later := filter (fun t => is_due t_end t = false) (timers w) in
  fold_left (fun cw t => callback pg (due t) t cw) ready
            (c, with_now t_end (with_timers later w)).

Definition step (pg : page) (cw : world) (i : input) : world :=
  let (c, w) := cw in
  match i with
  | Elapse ms => elapse pg ms cw
  | SetState a =>
      if mounted c then commit (key c) (next_state a (state c)) cw else cw
  | SetKey k =>
      if mounted c then commit k (state c) cw else cw
  | Unmount =>
      if mounted c then
        let (c, w) := run_cleanup cw in
        ({| key := key c; state := state c; quotaErrorNotified := quotaErrorNotified c;
            saveTimeoutRef := saveTimeoutRef c; cleanup := false; mounted := false |},
         w)
      else cw
  end.

Definition run (pg : page) (cw : world) (inputs : list input) : world :=
  fold_left (step pg) inputs cw.

(** Lines 37-91 at the first render of the hook: the [useState]
    initialiser runs, the two refs are made, and React runs the effect once
    the render is committed; later renders are [commit]s.  [None] if the
    initialiser throws: the component does not mount. *)
Definition usePersistentState (pg : page) (k : string) (initialState : value) : option world :=
  let r := Load.initializer pg k initialState in
  match r.2 with
  | inr s =>
      Some (effect
              ({| key := k; state := s; quotaErrorNotified := false;
                  saveTimeoutRef := None; cleanup := false; mounted := true |},
               {| now := 0; next_handle := 1; timers := []; log := r.1 |}))
  | inl _ => None
  end.

(** The write attempts, the warnings shown to the user, and the reads of
    the backend in a log. *)
Definition writes (l : list event) : list event := filter (fun e => is_write e = true) l.
Definition alerts (l : list event) : list event := filter (fun e => is_alert e = true) l.
Definition reads (l : list event) : list event := filter (fun e => is_read e = true) l.

End Persist.

(* ===================================================================== *)
(** * Sample pages *)
(* ===================================================================== *)

(** Concrete defaults and pages on which the statements below are run. *)
Module Demo.
Import Js Page.

(** A stand-in for [JSON.stringify] that keeps the shape of a value
    readable. *)
Fixpoint show (v : value) : string :=
  match v with
  | VUndefined => "undefined"
  | VNull => "null"
  | VBool true => "true"
  | VBool false => "false"
  | VNum _ => "#"
  | VStr s => s
  | VFun name => "function " ++ name
  | VArr elems => "[" ++ String.concat "," (map show elems) ++ "]"
  | VObj fields =>
      "{" ++ String.concat "," (map (fun kv => kv.1 ++ ":" ++ show kv.2) fields) ++ "}"
  end%string.

Definition defaults : value :=
  VObj [("name", VStr "Aria");
        ("tts", VObj [("enabled", VBool true); ("pitch", VNum 1)])].

(** Nothing stored, nothing published, the backend accepts every write. *)
Definition page_empty : page :=
  {| INITIAL_APP_STATE := VUndefined;
     getItem := fun _ => inr None;
     JSON_parse := fun _ => inl (Error "SyntaxError");
     JSON_stringify := show;
     setItem := fun _ _ _ => None |}.

(** A snapshot was published before the hook mounts; the backend cannot
    even be read. *)
Definition page_bootstrapped : page :=
  {| INITIAL_APP_STATE := VObj [("name", VStr "Eve")];
     getItem := fun _ => inl (DOMException "SecurityError");
     JSON_parse := fun _ => inl (Error "SyntaxError");
     JSON_stringify := show;
     setItem := fun _ _ _ => None |}.

(** The backend holds text that does not parse. *)
Definition page_garbled : page :=
  {| INITIAL_APP_STATE := VUndefined;
     getItem := fun _ => inr (Some "{oops");
     JSON_parse := fun _ => inl (Error "SyntaxError");
     JSON_stringify := show;
     setItem := fun _ _ _ => None |}.

(** The backend is full. *)
Definition page_full : page :=
  {| INITIAL_APP_STATE := VUndefined;
     getItem := fun _ => inr None;
     JSON_parse := fun _ => inl (Error "SyntaxError");
     JSON_stringify := show;
     setItem := fun _ _ _ => Some (DOMException "QuotaExceededError") |}.

(** The backend refuses writes for another reason. *)
Definition page_locked : page :=
  {| INITIAL_APP_STATE := VUndefined;
     getItem := fun _ => inr None;
     JSON_parse := fun _ => inl (Error "SyntaxError");
     JSON_stringify := show;
     setItem := fun _ _ _ => Some (DOMException "SecurityError") |}.

End Demo.

(* ===================================================================== *)
(** * The sound-effect player *)
(* ===================================================================== *)

(** [class AudioService] of the sound-effect module: a lazily made
    [AudioContext] and two sounds played on it.  Of the calls on the
    platform only the constructor is taken to be able to throw. *)
Module Audio.

#[local] Set Warnings "-inexact-float".

(** [OscillatorType], as far as the class uses it. *)
Inductive wave : Type := sine | square | sawtooth | triangle.

(** [AudioContext.state] *)
Inductive context_state : Type := suspended | running | closed.

(** What one call finds of the platform: whether [window] is defined,
    whether it has an [AudioContext] (or [webkitAudioContext]) constructor
    and whether that constructor returns or throws, and the state and
    clock of the context the service holds. *)
Record platform : Type := {
  window_defined : bool;
  AudioContext_defined : bool;
  constructor_throws : bool;
  state : context_state;
  currentTime : float
}.

(** The calls made on the platform. *)
Inductive event : Type :=
  | NewAudioContext (thrown : bool)
  | Resume
  | CreateOscillator
  | CreateGain
  | SetType (type : wave)
  | FrequencySetValueAtTime (value time : float)
  | GainSetValueAtTime (value time : float)
  | GainExponentialRampToValueAtTime (value time : float)
  | ConnectOscillatorToGain
  | ConnectGainToDestination
  | Start (time : float)
  | Stop (time : float).

(** The two private fields; [audioContext] is [true] when a context is
    held, [false] when it is [null]. *)
Record AudioService : Type := {
  audioContext : bool;
  isInitialized : bool
}.

(** [new AudioService()] *)
Definition fresh : AudioService :=
  {| audioContext := false; isInitialized := false |}.

(** A method returns the service as it left it and what it called, or
    throws having done so. *)
Record outcome : Type := {
  service : AudioService;
  calls : list event;
  threw : bool
}.

(** Lines 5-16. *)
Definition initialize (pf : platform) (this : AudioService) : outcome :=
  if negb (isInitialized this) && window_defined pf then
    if AudioContext_defined pf then
      if constructor_throws pf then
        {| service := this; calls := [NewAudioContext true]; threw := true |}
      else
        {| service := {| audioContext := true; isInitialized := true |};
           calls := [NewAudioContext false]; threw := false |}
    else
      {| service := {| audioContext := audioContext this; isInitialized := true |};
         calls := []; threw := false |}
  else
    {| service := this; calls := []; threw := false |}.

(** Lines 18-22. *)
Definition resumeContext (pf : platform) (this : AudioService) : list event :=
  if audioContext this then
    match state pf with
    | suspended => [Resume]
    | _ => []
    end
  else [].

(** Lines 24-44. *)
Definition playSound (pf : platform) (type : wave)
    (frequency duration volume : float) (this : AudioService) : outcome :=
  let init := initialize pf this in
  if threw init then init
  else
    let this := service init in
    let resumed := resumeContext pf this in
    if negb (audioContext this) then
      {| service := this; calls := calls init ++ resumed; threw := false |}
    else
      {| service := this;
         calls := calls init ++ resumed ++
           [CreateOscillator; CreateGain; SetType type;
            FrequencySetValueAtTime frequency (currentTime pf);
            GainSetValueAtTime volume (currentTime pf);
            GainExponentialRampToValueAtTime 0.0001 (currentTime pf + duration);
            ConnectOscillatorToGain; ConnectGainToDestination;
            Start (currentTime pf);
            Stop (currentTime pf + duration)];
         threw := false |}.

(** Lines 46-48. *)
Definition playMessageSentSound (pf : platform) (this : AudioService) : outcome :=
  playSound pf sine 600 0.1 0.2 this.

(** Lines 50-52. *)
Definition playMessageReceivedSound (pf : platform) (this : AudioService) : outcome :=
  playSound pf triangle 800 0.15 0.25 this.

(** The public methods. *)
Inductive sound : Type := MessageSent | MessageReceived.

Definition play (pf : platform) (s : sound) (this : AudioService) : outcome :=
  match s with
  | MessageSent => playMessageSentSound pf this
  | MessageReceived => playMessageReceivedSound pf this
  end.

(** The sounds an application plays one after the other, each with the
    platform as it is then; a call that throws leaves the service to the
    next. *)
Fixpoint play_all (sounds : list (platform * sound)) (this : AudioService)
  : AudioService * list event :=
  match sounds with
  | [] => (this, [])
  | (pf, s) :: rest =>
      let o := play pf s this in
      let r := play_all rest (service o) in
      (r.1, calls o ++ r.2)
  end.

Definition is_construction (e : event) : bool :=
  match e with NewAudioContext _ => true | _ => false end.

Definition is_success (e : event) : bool :=
  match e with NewAudioContext false => true | _ => false end.

End Audio.

(* ===================================================================== *)
(** * The journal entry of [src/services/aiService.ts] *)
(* ===================================================================== *)

(** [generateJournalEntry], lines 142-153, with the parts of [AppState] it
    reads. *)
Module Journal.
Import Page.

Record Message : Type := { text : string }.

(** [appState.companionSettings.name] and [appState.chatHistory]. *)
Record AppState : Type := {
  name : string;
  chatHistory : list Message
}.

(** [ai.models.generateContent({model, contents})]: the call returns a
    response, whose [text] may be undefined, or throws. *)
Definition client : Type := string -> string -> exn + option string.

(** [l.slice(-n)] *)
Definition slice_last {A} (n : nat) (l : list A) : list A :=
  skipn (List.length l - n) l.

Definition newline : string := String "010"%char EmptyString.

(** Line 146. *)
Definition history (appState : AppState) : string :=
  String.concat newline (map text (slice_last 5 (chatHistory appState))).

(** Line 149. *)
Definition contents (appState : AppState) : string :=
  ("Write a short, intimate journal entry from the perspective of "
   ++ name appState ++ " reflecting on these recent chats: "
   ++ history appState)%string.

(** Lines 142-153; [ai] is what [getAIClient()] returned. *)
Definition generateJournalEntry (ai : option client) (appState : AppState) : string :=
  match ai with
  | None => "Today was a day of reflection and connection."
  | Some generateContent =>
      match generateContent "gemini-3-flash-preview" (contents appState) with
      | inr (Some response_text) =>
          if negb (String.eqb response_text "") then response_text
          else "I feel closer to you every day."
      | inr None => "I feel closer to you every day."
      | inl _ => "Reflection complete."
      end
  end.

End Journal.

(* ===================================================================== *)
(** * Properties of reconciliation *)
(* ===================================================================== *)

Module MergeProps.
Import Props Js Merge.

#[local] Arguments mergeDefaults : simpl never.
#[local] Arguments is_nullish !v /.

(** What line 17-25 leave in a field: the default when the loaded value is
    [null] or [undefined], the recursive merge when the default is a
    nested non-sequence structure, the loaded value otherwise. *)
Definition reconciled (loadedValue defaultValue : value) : value :=
  if is_nullish loadedValue then defaultValue
  else match defaultValue with
       | VObj _ => mergeDefaults loadedValue defaultValue
       | _ => loadedValue
       end.

Definition is_primitive (v : value) : bool :=
  match v with
  | VBool _ | VNum _ | VStr _ => true
  | _ => false
  end.

(** [typeof d === 'object' && d !== null && !Array.isArray(d)] *)
Definition is_plain_object (d : value) : bool :=
  match d with
  | VObj _ => true
  | _ => false
  end.

(** ** Assignment *)

Lemma own_update_eq {A} (o : list (string * A)) key v :
  is_Some (own o key) -> own (update o key v) key = Some v.
Proof.
  induction o as [|[k w] o IH]; simpl; [by intros [? ?] |].
  destruct (String.eqb k key) eqn:E; simpl; rewrite E; auto.
Qed.

Lemma own_update_ne {A} (o : list (string * A)) key v k :
  k <> key -> own (update o key v) k = own o k.
Proof.
  intros Hne. induction o as [|[k' w] o IH]; simpl; [done |].
  destruct (String.eqb_spec k' key) as [->|]; simpl.
  - destruct (String.eqb_spec key k); congruence.
  - destruct (String.eqb_spec k' k); auto.
Qed.

Lemma own_app {A} (o o' : list (string * A)) k :
  own (o ++ o') k = match own o k with Some v => Some v | None => own o' k end.
Proof.
  induction o as [|[k' w] o IH]; simpl; [done |]. by destruct (String.eqb k' k).
Qed.

Lemma own_add_index_eq {A} (o : list (string * A)) key n v :
  own o key = None -> own (add_index o key n v) key = Some v.
Proof.
  induction o as [|[k w] o IH]; simpl.
  - by rewrite String.eqb_refl.
  - destruct (String.eqb k key) eqn:E; [discriminate |]. intros Ho.
    destruct (array_index k) as [m|]; [destruct (m <? n)%N |]; simpl;
      rewrite ?E, ?String.eqb_refl; auto.
Qed.

Lemma own_add_index_ne {A} (o : list (string * A)) key n v k :
  k <> key -> own (add_index o key n v) k = own o k.
Proof.
  intros Hne. induction o as [|[k' w] o IH]; simpl.
  - destruct (String.eqb_spec key k); congruence.
  - destruct (array_index k') as [m|]; [destruct (m <? n)%N |]; simpl;
      try (destruct (String.eqb_spec key k); [congruence | done]).
    by rewrite IH.
Qed.

Lemma own_add_eq {A} (o : list (string * A)) key v :
  own o key = None -> own (add o key v) key = Some v.
Proof.
  intros Ho. unfold add. destruct (array_index key).
  - by apply own_add_index_eq.
  - rewrite own_app, Ho. simpl. by rewrite String.eqb_refl.
Qed.

Lemma own_add_ne {A} (o : list (string * A)) key v k :
  k <> key -> own (add o key v) k = own o k.
Proof.
  intros Hne. unfold add. destruct (array_index key).
  - by apply own_add_index_ne.
  - rewrite own_app. simpl. destruct (own o k); [done |].
    destruct (String.eqb_spec key k); congruence.
Qed.

(** An assignment is seen by the next read, unless it went to the setter
    of [Object.prototype]. *)
Lemma own_assign_eq {A} (o : list (string * A)) key v :
  is_Some (own o key) \/ key <> "__proto__" ->
  own (assign o key v) key = Some v.
Proof.
  intros H. unfold assign. destruct (own o key) eqn:E.
  - apply own_update_eq. by rewrite E.
  - destruct H as [[? ?]|H]; [done |].
    destruct (String.eqb_spec key "__proto__"); [done |]. by apply own_add_eq.
Qed.

Lemma own_assign_ne {A} (o : list (string * A)) key v k :
  k <> key -> own (assign o key v) k = own o k.
Proof.
  intros Hne. unfold assign. destruct (own o key).
  - by apply own_update_ne.
  - destruct (String.eqb key "__proto__"); [done |]. by apply own_add_ne.
Qed.

Lemma assign__proto__ {A} (o : list (string * A)) v :
  own o "__proto__" = None -> assign o "__proto__" v = o.
Proof. intros Ho. unfold assign. by rewrite Ho. Qed.

(** ** Lookup *)

Lemma inherits_lookup {A} (o : list (string * A)) key :
  own o key = None ->
  inherits key = false <-> lookup o key = Absent.
Proof.
  intros Ho. unfold inherits, lookup. rewrite Ho.
  destruct (String.eqb key "__proto__"),
    (existsb (String.eqb key) Object_prototype_methods);
    simpl; split; congruence.
Qed.

(** On an own property, and on a name [Object.prototype] does not have,
    [o[key]] is the own property or [undefined]. *)
Lemma get_get_own o key :
  inherits key = false \/ is_Some (own o key) -> get o key = get_own o key.
Proof.
  unfold get, get_own, lookup. destruct (own o key) eqn:E; [done |].
  intros [H|[? ?]]; [|done].
  apply (inherits_lookup o key E) in H. unfold lookup in H. rewrite E in H.
  by rewrite H.
Qed.

(** What [o[key]] inherits is neither [null] nor [undefined]. *)
Lemma get_inherited o key :
  own o key = None -> inherits key = true ->
  get o key = (if String.eqb key "__proto__" then VObj [] else VFun key).
Proof.
  intros Ho Hi. unfold get, lookup. rewrite Ho.
  unfold inherits in Hi. destruct (String.eqb key "__proto__"); [done |].
  cbn [orb] in Hi. by rewrite Hi.
Qed.

Lemma get_not_nullish_own o key :
  is_nullish (get_own o key) = false -> own o key = Some (get_own o key).
Proof. unfold get_own. destruct (own o key); simpl; [done | discriminate]. Qed.

Lemma own_In {A} (o : list (string * A)) key v :
  own o key = Some v -> In (key, v) o.
Proof.
  induction o as [|[k w] o IH]; simpl; [discriminate |].
  destruct (String.eqb_spec k key) as [->|]; [intros [= ->]; auto | auto].
Qed.

Lemma own_None_notin {A} (o : list (string * A)) key :
  own o key = None -> ~ In key (o.*1).
Proof.
  induction o as [|[k w] o IH]; simpl; [tauto |].
  destruct (String.eqb_spec k key); [discriminate | intros H [?|?]; [done | by apply IH]].
Qed.

Lemma notin_own_None {A} (o : list (string * A)) key :
  ~ In key (o.*1) -> own o key = None.
Proof.
  induction o as [|[k w] o IH]; simpl; [done |].
  intros H. destruct (String.eqb_spec k key); [tauto | apply IH; tauto].
Qed.

(** The loop body touches the field it is run for, and no other. *)
Lemma own_merge_field_ne recur key d result k :
  k <> key -> own (merge_field recur key d result) k = own result k.
Proof.
  intros Hne. unfold merge_field.
  repeat case_match; auto using own_assign_ne.
Qed.

Lemma own_merge_field_eq key d result :
  inherits key = false \/ is_Some (own result key) ->
  own (merge_field (fun lv => mergeDefaults lv d) key d result) key
  = Some (reconciled (get_own result key) d).
Proof.
  intros Hk. unfold merge_field, reconciled. rewrite (get_get_own _ _ Hk).
  change (is_undefined (get_own result key) || is_null (get_own result key))
    with (is_nullish (get_own result key)).
  assert (Ha : is_Some (own result key) \/ key <> "__proto__").
  { destruct Hk as [Hk|]; [right | by left]. by intros ->. }
  destruct (is_nullish (get_own result key)) eqn:Hn.
  - by apply own_assign_eq.
  - destruct d; simpl; auto using get_not_nullish_own, own_assign_eq.
Qed.

(** Line 8 on a function. *)
Lemma merge_function name fields :
  mergeDefaults (VFun name) (VObj fields) = VObj fields.
Proof. reflexivity. Qed.

(** A field of the defaults that the result does not have, under a name
    that [Object.prototype] has: line 15 reads the inherited member, so
    that line 18 is not reached, and line 24 only for a default that is a
    nested structure, which then replaces a method and, under
    [__proto__], goes to the setter. *)
Lemma merge_field_inherited key d result :
  own result key = None -> inherits key = true ->
  merge_field (fun lv => mergeDefaults lv d) key d result
  = if is_plain_object d && negb (String.eqb key "__proto__")
    then assign result key d
    else result.
Proof.
  intros Ho Hi. unfold merge_field. rewrite (get_inherited _ _ Ho Hi).
  destruct (String.eqb_spec key "__proto__") as [->|Hne]; simpl.
  - rewrite andb_false_r. destruct d; simpl; try done. by apply assign__proto__.
  - rewrite andb_true_r. by destruct d.
Qed.

Abbreviation loop fields start :=
  (fold_left
     (fun acc (kd : string * value) =>
        merge_field (fun lv => mergeDefaults lv kd.2) kd.1 kd.2 acc)
     fields start).

Lemma own_loop_other fields : forall result k,
  own fields k = None -> own (loop fields result) k = own result k.
Proof.
  induction fields as [|[key d] fields IH]; intros result k Hk; simpl in *; [done |].
  destruct (String.eqb_spec key k) as [|Hne]; [discriminate |].
  rewrite IH by done. apply own_merge_field_ne. congruence.
Qed.

(** What the loop leaves in a field of the defaults: the value the turn
    for that field leaves. *)
Lemma own_loop_turn fields : forall result k d,
  NoDup (fields.*1) -> own fields k = Some d ->
  exists before,
    own before k = own result k /\
    own (loop fields result) k
    = own (merge_field (fun lv => mergeDefaults lv d) k d before) k.
Proof.
  induction fields as [|[key d'] fields IH]; intros result k d Hnd Hk; simpl in *;
    [discriminate |].
  apply NoDup_cons in Hnd as [Hnotin Hnd].
  destruct (String.eqb_spec key k) as [->|Hne].
  - injection Hk as ->. exists result. split; [done |].
    rewrite own_loop_other; [done |].
    apply notin_own_None. by rewrite <- list_elem_of_In.
  - destruct (IH (merge_field (fun lv => mergeDefaults lv d') key d' result) k d Hnd Hk)
      as (before & Hb & Hl).
    exists before. split; [|done].
    rewrite Hb. apply own_merge_field_ne. congruence.
Qed.

Lemma own_loop_field fields : forall result k d,
  NoDup (fields.*1) -> own fields k = Some d ->
  inherits k = false \/ is_Some (own result k) ->
  own (loop fields result) k = Some (reconciled (get_own result k) d).
Proof.
  intros result k d Hnd Hk Hok.
  destruct (own_loop_turn fields result k d Hnd Hk) as (before & Hb & ->).
  rewrite own_merge_field_eq by (by rewrite Hb).
  unfold get_own. by rewrite Hb.
Qed.

(** A field of the defaults under a name that [Object.prototype] has,
    which the loaded value does not have. *)
Lemma own_loop_inherited fields : forall result k d,
  NoDup (fields.*1) -> own fields k = Some d ->
  own result k = None -> inherits k = true ->
  own (loop fields result) k
  = if is_plain_object d && negb (String.eqb k "__proto__") then Some d else None.
Proof.
  intros result k d Hnd Hk Ho Hi.
  destruct (own_loop_turn fields result k d Hnd Hk) as (before & Hb & ->).
  rewrite Ho in Hb. rewrite merge_field_inherited by done.
  destruct (is_plain_object d && negb (String.eqb k "__proto__")) eqn:E; [|done].
  apply own_assign_eq. right. intros ->. by rewrite andb_false_r in E.
Qed.

(** [mergeDefaults] on a structure of named fields. *)
Lemma mergeDefaults_obj loaded fields :
  mergeDefaults loaded (VObj fields) =
  if negb (truthy loaded) || negb (String.eqb (typeof loaded) "object")
  then VObj fields
  else VObj (loop fields (spread loaded)).
Proof. reflexivity. Qed.

(** Line 8: nothing usable was loaded. *)
Lemma merge_unusable loaded fields :
  is_nullish loaded || is_primitive loaded = true ->
  mergeDefaults loaded (VObj fields) = VObj fields.
Proof.
  intros H. rewrite mergeDefaults_obj.
  destruct loaded; simpl in H |- *; rewrite ?orb_true_r; done.
Qed.

Lemma mergeDefaults_is_obj loaded fields :
  exists fs, mergeDefaults loaded (VObj fields) = VObj fs.
Proof. rewrite mergeDefaults_obj. case_match; eauto. Qed.

Lemma wf_obj fields :
  wf (VObj fields) = true ->
  NoDup (fields.*1) /\ forall k d, own fields k = Some d -> wf d = true.
Proof.
  simpl. intros [Hnd Hall]%andb_prop. split.
  - by apply bool_decide_eq_true in Hnd.
  - intros k d Hk%own_In. rewrite forallb_forall in Hall. apply (Hall (k, d) Hk).
Qed.

(** The two early exits of line 8: nothing can be read from such a
    value. *)
Lemma unusable_read loaded p :
  negb (truthy loaded) || negb (String.eqb (typeof loaded) "object") = true ->
  p <> [] -> is_nullish (read loaded p) = true.
Proof.
  destruct loaded, p; simpl; auto; discriminate.
Qed.

Lemma read_nullish v p : p <> [] -> is_nullish v = true -> read v p = VUndefined.
Proof. destruct p, v; simpl; congruence. Qed.

Lemma plain_names_obj fields :
  plain_names (VObj fields) = true ->
  forall k d, own fields k = Some d -> inherits k = false /\ plain_names d = true.
Proof.
  simpl. intros Hall k d Hk%own_In. rewrite forallb_forall in Hall.
  specialize (Hall (k, d) Hk). simpl in Hall.
  apply andb_prop in Hall as [Hi Hd]. by apply negb_true_iff in Hi.
Qed.

(** The value [mergeDefaults] leaves at a field path of the defaults:
    where no name of the defaults is one that [Object.prototype] has, and
    in any case where the loaded value has a value of its own at that
    path. *)
Lemma path_merge p : forall loaded fields d,
  wf (VObj fields) = true -> p <> [] ->
  path (VObj fields) p = Some d ->
  plain_names (VObj fields) = true \/ is_nullish (read loaded p) = false ->
  path (mergeDefaults loaded (VObj fields)) p = Some (reconciled (read loaded p) d).
Proof.
  induction p as [|k p IH]; intros loaded fields d Hwf Hp Hd Hok; [done |].
  destruct (wf_obj _ Hwf) as [Hnd Hsub].
  simpl in Hd. destruct (own fields k) as [dk|] eqn:Hk; [|discriminate].
  rewrite mergeDefaults_obj.
  destruct (negb (truthy loaded) || negb (String.eqb (typeof loaded) "object")) eqn:Hu.
  - (* line 8: a copy of the defaults *)
    pose proof (unusable_read loaded (k :: p) Hu Hp) as Hn.
    unfold reconciled. rewrite Hn. simpl. by rewrite Hk.
  - (* the loop *)
    assert (Hread : read loaded (k :: p) = read (get_own (spread loaded) k) p)
      by (destruct loaded; simpl in Hu; rewrite ?orb_true_r in Hu; done).
    rewrite Hread in Hok |- *. simpl.
    assert (Hown : inherits k = false \/ is_Some (own (spread loaded) k)).
    { destruct Hok as [Hpl|Hr].
      - left. by destruct (plain_names_obj _ Hpl k dk Hk).
      - right. unfold get_own in Hr. destruct (own (spread loaded) k); [done |].
        simpl in Hr. by destruct p. }
    rewrite (own_loop_field _ _ _ dk Hnd Hk Hown).
    destruct p as [|k' p'].
    + simpl in *. by injection Hd as ->.
    + unfold reconciled at 1.
      destruct (is_nullish (get_own (spread loaded) k)) eqn:Hn.
      * rewrite Hd, read_nullish by done. done.
      * destruct dk; try discriminate.
        apply IH; eauto.
        destruct Hok as [Hpl|Hr]; [left | by right].
        by destruct (plain_names_obj _ Hpl k _ Hk).
Qed.

Example merge_nested :
  mergeDefaults
    (VObj [("a", VObj [("x", VNum 1)])])
    (VObj [("a", VObj [("x", VNum 0); ("y", VNum 0)]); ("b", VNum 5)])
  = VObj [("a", VObj [("x", VNum 1); ("y", VNum 0)]); ("b", VNum 5)].
Proof. reflexivity. Qed.

Example merge_array_loaded :
  mergeDefaults (VArr [VNum 1; VNum 2]) (VObj [("a", VNum 0)])
  = VObj [("0", VNum 1); ("1", VNum 2); ("a", VNum 0)].
Proof. reflexivity. Qed.

(** A default that is a nested structure replaces an inherited method:
    line 24 merges the method, which line 8 turns into a copy of the
    default. *)
Example merge_structure_over_method :
  mergeDefaults (VObj []) (VObj [("valueOf", VObj [("a", VNum 1)])])
  = VObj [("valueOf", VObj [("a", VNum 1)])].
Proof. reflexivity. Qed.

(** A default under [__proto__] is never copied into a loaded object that
    has no property of that name. *)
Example merge__proto__ :
  mergeDefaults (VObj [("a", VNum 1)])
    (VObj [("__proto__", VObj [("b", VNum 2)]); ("c", VNum 3)])
  = VObj [("a", VNum 1); ("c", VNum 3)].
Proof. reflexivity. Qed.

(** Defaults that are added under array indices are enumerated before
    the names that were loaded. *)
Example merge_index_order :
  mergeDefaults (VObj [("1", VNum 1); ("b", VNum 2)])
    (VObj [("a", VNum 0); ("2", VNum 0); ("0", VNum 0)])
  = VObj [("0", VNum 0); ("1", VNum 1); ("2", VNum 0); ("b", VNum 2); ("a", VNum 0)].
Proof. reflexivity. Qed.

(** ** C1: completeness of the reconciled value *)

(** C1.  The code does not do what the claim says for a default field
    whose name is that of a member of [Object.prototype].  For the
    defaults [{constructor: 5}] and the loaded value [{}], line 15 reads
    the inherited [constructor], a function: it is neither [null] nor
    [undefined], so line 18 is not reached, and the default is no nested
    structure, so line 24 is not reached either.  The result is [{}]: the
    defaults have a value at the path [constructor], the loaded value has
    none, and the result has none of its own. *)
Theorem merge_misses_inherited_name :
  path (VObj [("constructor", VNum 5)]) ["constructor"] = Some (VNum 5) /\
  is_nullish (read (VObj []) ["constructor"]) = true /\
  get [] "constructor" = VFun "constructor" /\
  mergeDefaults (VObj []) (VObj [("constructor", VNum 5)]) = VObj [] /\
  path (mergeDefaults (VObj []) (VObj [("constructor", VNum 5)])) ["constructor"]
  = None.
Proof. repeat split. Qed.

(** X20.  For a default structure [D] none of whose field names, at any
    depth, is the name of a member of [Object.prototype], and any loaded
    value [L], every field path of [D] leads to a value in
    [mergeDefaults L D]; where [L] has nothing, [null] or [undefined] at
    the path, that value is the one [D] has there. *)
Theorem merge_complete (fields : props) (L : value) (p : list string) (d : value) :
  wf (VObj fields) = true ->
  plain_names (VObj fields) = true ->
  path (VObj fields) p = Some d ->
  (exists v, path (mergeDefaults L (VObj fields)) p = Some v) /\
  (is_nullish (read L p) = true ->
   path (mergeDefaults L (VObj fields)) p = Some d).
Proof.
  intros Hwf Hpl Hd. destruct p as [|k p].
  - injection Hd as <-. split; [by eexists |].
    simpl. intros Hn. f_equal. apply merge_unusable. by rewrite Hn.
  - rewrite (path_merge (k :: p) L fields d) by auto.
    split; [eauto |]. intros Hn. unfold reconciled. by rewrite Hn.
Qed.

Lemma merge_complete_witness :
  let D := [("a", VObj [("x", VNum 0); ("y", VNum 0)]); ("b", VNum 5)] in
  let L := VObj [("a", VObj [("x", VNum 1)])] in
  (exists v, path (mergeDefaults L (VObj D)) ["a"; "y"] = Some v) /\
  (is_nullish (read L ["a"; "y"]) = true ->
   path (mergeDefaults L (VObj D)) ["a"; "y"] = Some (VNum 0)).
Proof.
  apply (merge_complete
           [("a", VObj [("x", VNum 0); ("y", VNum 0)]); ("b", VNum 5)]
           (VObj [("a", VObj [("x", VNum 1)])]) ["a"; "y"] (VNum 0));
    vm_compute; reflexivity.
Defined.

(** ** C7: fields the defaults do not know *)

Lemma path_app v p q w :
  path v p = Some w -> path v (p ++ q) = path w q.
Proof.
  revert v. induction p as [|k p IH]; intros v; simpl.
  - by intros [= ->].
  - destruct v; try discriminate. destruct (own fields k); [apply IH | discriminate].
Qed.

(** A field path of the loaded structure that the defaults do not have
    leads to the same value after the merge, at any depth. *)
Lemma path_merge_extra p : forall loaded fields v,
  wf (VObj fields) = true ->
  path (VObj loaded) p = Some v ->
  path (VObj fields) p = None ->
  path (mergeDefaults (VObj loaded) (VObj fields)) p = Some v.
Proof.
  induction p as [|k p IH]; intros loaded fields v Hwf Hl Hd; [discriminate |].
  destruct (wf_obj _ Hwf) as [Hnd Hsub].
  rewrite mergeDefaults_obj. simpl in Hl, Hd |- *.
  destruct (own loaded k) as [lv|] eqn:Hlk; [|discriminate].
  destruct (own fields k) as [dk|] eqn:Hdk.
  - rewrite (own_loop_field _ _ _ dk Hnd Hdk) by (right; by rewrite Hlk).
    unfold get_own. rewrite Hlk. simpl.
    destruct p as [|k' p']; [discriminate |].
    destruct lv as [| | | | | | |lf]; try discriminate.
    unfold reconciled. simpl is_nullish. cbv iota.
    destruct dk; try done. apply IH; eauto.
  - rewrite own_loop_other by done. by rewrite Hlk.
Qed.

(** C7.  A field of the loaded structure [L] that the default structure
    [D] does not have is in [mergeDefaults L D] with the value [L] gives
    it, and so is every field path of [L] that [D] does not have;
    [mergeDefaults {a: 1, z: 9} {a: 0}] is [{a: 1, z: 9}]. *)
Theorem merge_keeps_extra_fields :
  (forall (L D : props) (key : string) (v : value),
     own L key = Some v -> own D key = None ->
     path (mergeDefaults (VObj L) (VObj D)) [key] = Some v) /\
  (forall (L D : props) (p : list string) (v : value),
     wf (VObj D) = true ->
     path (VObj L) p = Some v -> path (VObj D) p = None ->
     path (mergeDefaults (VObj L) (VObj D)) p = Some v) /\
  mergeDefaults (VObj [("a", VNum 1); ("z", VNum 9)]) (VObj [("a", VNum 0)])
  = VObj [("a", VNum 1); ("z", VNum 9)].
Proof.
  split; [|split; [|reflexivity]].
  - intros L D key v HL HD. rewrite mergeDefaults_obj. simpl.
    rewrite own_loop_other by done. by rewrite HL.
  - intros L D p v Hwf HL HD. by apply path_merge_extra.
Qed.

Lemma merge_keeps_extra_fields_witness :
  path (mergeDefaults (VObj [("a", VObj [("x", VNum 1); ("old", VStr "kept")])])
          (VObj [("a", VObj [("x", VNum 0)])])) ["a"; "old"]
  = Some (VStr "kept").
Proof.
  apply (proj1 (proj2 merge_keeps_extra_fields)); vm_compute; reflexivity.
Defined.

(** ** C10: a primitive where the defaults have a structure *)

(** C10.  Where the loaded value [L] holds a boolean, a number or a string
    at a field path at which the default structure holds a nested
    structure of named fields, [mergeDefaults] leaves the default's
    substructure there, whole: every field path of the substructure is a
    field path of the result, with the default's value. *)
Theorem merge_type_mismatch
    (fields : props) (L : value) (p : list string) (sub : props) :
  wf (VObj fields) = true ->
  path (VObj fields) p = Some (VObj sub) ->
  is_primitive (read L p) = true ->
  path (mergeDefaults L (VObj fields)) p = Some (VObj sub) /\
  (forall q d, path (VObj sub) q = Some d ->
               path (mergeDefaults L (VObj fields)) (p ++ q) = Some d).
Proof.
  intros Hwf Hd Hprim.
  assert (H : path (mergeDefaults L (VObj fields)) p = Some (VObj sub)).
  { destruct p as [|k p].
    - injection Hd as ->. simpl in Hprim |- *. f_equal.
      apply merge_unusable. by rewrite Hprim, orb_true_r.
    - rewrite (path_merge (k :: p) L fields (VObj sub))
        by (try done; right; by destruct (read L (k :: p))).
      unfold reconciled. rewrite merge_unusable by (by rewrite Hprim, orb_true_r).
      by destruct (read L (k :: p)). }
  split; [done |]. intros q d Hq. by rewrite (path_app _ _ _ _ H).
Qed.

Lemma merge_type_mismatch_witness :
  path (mergeDefaults (VObj [("a", VStr "x")])
          (VObj [("a", VObj [("x", VNum 0)]); ("b", VNum 5)])) ["a"]
  = Some (VObj [("x", VNum 0)]) /\
  (forall q d, path (VObj [("x", VNum 0)]) q = Some d ->
     path (mergeDefaults (VObj [("a", VStr "x")])
             (VObj [("a", VObj [("x", VNum 0)]); ("b", VNum 5)])) (["a"] ++ q)
     = Some d).
Proof.
  apply (merge_type_mismatch
           [("a", VObj [("x", VNum 0)]); ("b", VNum 5)]
           (VObj [("a", VStr "x")]) ["a"] [("x", VNum 0)]);
    vm_compute; reflexivity.
Defined.

End MergeProps.

(* ===================================================================== *)
(** * Properties of the initialiser *)
(* ===================================================================== *)

Module LoadProps.
Import Js Merge Page Load Persist.

(** The initialiser always returns: whatever its body throws is caught at
    line 52, and the handler does not throw. *)
Lemma try_catch_returns {A} (body : T A) (handler : exn -> T A) :
  (forall e, exists a, (handler e).2 = inr a) ->
  exists a, (try_catch body handler).2 = inr a.
Proof.
  intros Hh. unfold try_catch. destruct body as [l [e|a]]; simpl; eauto.
Qed.

Lemma initializer_returns pg k initialState :
  exists s, (initializer pg k initialState).2 = inr s.
Proof. apply try_catch_returns. intros e. by eexists. Qed.

Lemma mount_succeeds pg k initialState :
  exists cw, usePersistentState pg k initialState = Some cw.
Proof.
  unfold usePersistentState. destruct (initializer_returns pg k initialState) as [s ->]. eauto.
Qed.

(** The initialiser does not write to the backend, and does not alert. *)
Lemma initializer_log pg k initialState :
  Forall (fun e => is_write e = false /\ is_alert e = false)
         (initializer pg k initialState).1.
Proof.
  unfold initializer, try_catch, call, throwing, emit, mbind, mret, T_bind, T_ret.
  destruct (truthy (INITIAL_APP_STATE pg)); simpl; [by repeat constructor |].
  destruct (getItem pg k) as [e|[text|]]; simpl; try by repeat constructor.
  destruct (negb (String.eqb text "")); simpl; [|by repeat constructor].
  destruct (JSON_parse pg text); simpl; by repeat constructor.
Qed.

Lemma no_write_no_alert (l : list event) :
  Forall (fun e => is_write e = false /\ is_alert e = false) l ->
  writes l = [] /\ alerts l = [] /\
  existsb (fun e => match e with SetItem _ _ (Some error) => is_quota error | _ => false end) l
  = false.
Proof.
  induction 1 as [|e l [Hw Ha] _ (IH1 & IH2 & IH3)]; [done |].
  unfold writes, alerts in *.
  rewrite !filter_cons_False by (by rewrite ?Hw, ?Ha).
  repeat split; try done. simpl. rewrite IH3. by destruct e.
Qed.

(** A structure published in the bootstrap slot is present for line 41. *)
Lemma structure_truthy v :
  match v with VObj _ | VArr _ => truthy v = true | _ => True end.
Proof. by destruct v. Qed.

(** C4.  When the bootstrap slot holds a snapshot (a value line 41 takes
    as true, as every structure is), the hook mounts with the merge of the
    snapshot into the caller's defaults as its state, and nothing was read
    from the backend: the log of the initialisation holds one console
    message and no [getItem]. *)
Theorem bootstrap_snapshot_wins pg k initialState :
  truthy (INITIAL_APP_STATE pg) = true ->
  initializer pg k initialState
  = ([ConsoleLog "Loading state from portable data.js..."],
     inr (mergeDefaults (INITIAL_APP_STATE pg) initialState)) /\
  exists cw, usePersistentState pg k initialState = Some cw /\
             state cw.1 = mergeDefaults (INITIAL_APP_STATE pg) initialState /\
             reads (log cw.2) = [].
Proof.
  intros Hs.
  assert (E : initializer pg k initialState
              = ([ConsoleLog "Loading state from portable data.js..."],
                 inr (mergeDefaults (INITIAL_APP_STATE pg) initialState))).
  { unfold initializer. by rewrite Hs. }
  split; [done |]. unfold usePersistentState. rewrite E. simpl. eauto.
Qed.

Lemma bootstrap_snapshot_wins_witness :
  initializer Demo.page_bootstrapped "app" Demo.defaults
  = ([ConsoleLog "Loading state from portable data.js..."],
     inr (mergeDefaults (INITIAL_APP_STATE Demo.page_bootstrapped) Demo.defaults)) /\
  exists cw, usePersistentState Demo.page_bootstrapped "app" Demo.defaults = Some cw /\
             state cw.1
             = mergeDefaults (INITIAL_APP_STATE Demo.page_bootstrapped) Demo.defaults /\
             reads (log cw.2) = [].
Proof.
  apply (bootstrap_snapshot_wins Demo.page_bootstrapped "app" Demo.defaults).
  reflexivity.
Defined.

Example bootstrap_snapshot_state :
  mergeDefaults (INITIAL_APP_STATE Demo.page_bootstrapped) Demo.defaults
  = VObj [("name", VStr "Eve");
          ("tts", VObj [("enabled", VBool true); ("pitch", VNum 1)])].
Proof. reflexivity. Qed.

(** C5.  With no snapshot in the bootstrap slot, when reading the backend
    throws, or when the text it holds does not parse, the initialiser
    returns the caller's defaults themselves; it returns, it does not
    throw, and the hook mounts with the defaults as its state. *)
Theorem unreadable_backend_falls_back pg k initialState :
  truthy (INITIAL_APP_STATE pg) = false ->
  ((exists e, getItem pg k = inl e) \/
   (exists text e, getItem pg k = inr (Some text) /\ JSON_parse pg text = inl e)) ->
  (initializer pg k initialState).2 = inr initialState /\
  exists cw, usePersistentState pg k initialState = Some cw /\ state cw.1 = initialState.
Proof.
  intros Hs Hfail.
  assert (E : (initializer pg k initialState).2 = inr initialState).
  { unfold initializer, try_catch, call, throwing, emit, mbind, mret, T_bind, T_ret.
    rewrite Hs.
    destruct Hfail as [[e He]|(text & e & Ht & He)]; simpl.
    - by rewrite He.
    - rewrite Ht. simpl.
      destruct (negb (String.eqb text "")); simpl; [by rewrite He | done]. }
  split; [done |]. unfold usePersistentState. rewrite E. simpl. eauto.
Qed.

Lemma unreadable_backend_falls_back_witness :
  (initializer Demo.page_garbled "app" Demo.defaults).2 = inr Demo.defaults /\
  exists cw, usePersistentState Demo.page_garbled "app" Demo.defaults = Some cw /\
             state cw.1 = Demo.defaults.
Proof.
  apply (unreadable_backend_falls_back Demo.page_garbled "app" Demo.defaults).
  - reflexivity.
  - right. exists "{oops", (Error "SyntaxError"). split; reflexivity.
Defined.

End LoadProps.

(* ===================================================================== *)
(** * Properties of debounced persistence *)
(* ===================================================================== *)

Module PersistProps.
Import Js Page Load Persist.

(** A write attempt the backend refused for lack of room. *)
Definition quota_failure (e : event) : bool :=
  match e with
  | SetItem _ _ (Some error) => is_quota error
  | _ => false
  end.

(** At most one timer is pending, and [saveTimeoutRef] holds its handle;
    it was armed by the last run of the effect, for the key and the state
    of the last render. *)
Definition pending_ok (c : instance) (w : window) : Prop :=
  timers w = [] \/
  exists t, timers w = [t] /\ saveTimeoutRef c = Some (handle t) /\
            cleanup c = true /\ mounted c = true /\
            quotaErrorNotified c = false /\
            saved_key t = key c /\ saved_state t = state c.

(** [quotaErrorNotified] tells whether a write was refused for lack of
    room; if so, no timer is pending and the user was alerted once. *)
Definition log_ok (c : instance) (w : window) : Prop :=
  if quotaErrorNotified c then
    timers w = [] /\ List.length (alerts (log w)) = 1 /\
    existsb quota_failure (log w) = true
  else
    alerts (log w) = [] /\ existsb quota_failure (log w) = false.

Definition inv (cw : world) : Prop := pending_ok cw.1 cw.2 /\ log_ok cw.1 cw.2.

Ltac break_world cw :=
  let k := fresh "k" in let s := fresh "s" in let q := fresh "q" in
  let r := fresh "r" in let cl := fresh "cl" in let m := fresh "m" in
  let n := fresh "n" in let nh := fresh "nh" in let ts := fresh "ts" in
  let l := fresh "l" in
  destruct cw as [[k s q r cl m] [n nh ts l]].

Lemma alerts_app l1 l2 : alerts (l1 ++ l2) = alerts l1 ++ alerts l2.
Proof. apply filter_app. Qed.

Lemma writes_app l1 l2 : writes (l1 ++ l2) = writes l1 ++ writes l2.
Proof. apply filter_app. Qed.

Lemma clear_single t w :
  timers w = [t] -> timers (clearTimeout (handle t) w) = [].
Proof.
  intros E. unfold clearTimeout. simpl. rewrite E.
  rewrite filter_cons_False by (intros H; by apply H). done.
Qed.

Lemma clear_none h w : timers w = [] -> timers (clearTimeout h w) = [].
Proof. intros E. unfold clearTimeout. simpl. by rewrite E. Qed.

Lemma clear_pending_idle c w : timers w = [] -> clear_pending c w = w.
Proof.
  destruct w as [n nh ts l]. simpl. intros ->.
  unfold clear_pending. by destruct (saveTimeoutRef c).
Qed.

(** The cleanup of the previous effect leaves no timer behind. *)
Lemma run_cleanup_clears c w :
  pending_ok c w ->
  exists w', run_cleanup (c, w) = (c, w') /\ timers w' = [] /\
             log w' = log w /\ now w' = now w.
Proof.
  intros [E|(t & E & Hr & Hcl & _)]; unfold run_cleanup.
  - destruct (cleanup c); [|by eauto].
    eexists; split; [done |]. unfold clear_pending.
    destruct (saveTimeoutRef c); auto using clear_none.
  - rewrite Hcl. eexists; split; [done |]. unfold clear_pending. rewrite Hr.
    auto using clear_single.
Qed.

(** A committed render keeps the invariant. *)
Lemma inv_commit k s cw :
  inv cw -> mounted cw.1 = true -> inv (commit k s cw).
Proof.
  destruct cw as [c w]. intros [Hp Hl] Hm. simpl in *.
  destruct (run_cleanup_clears c w Hp) as (w' & E & Ht & Hlog & _).
  unfold commit. rewrite E. unfold effect. simpl.
  unfold log_ok in Hl.
  destruct (quotaErrorNotified c) eqn:Hq.
  - split; simpl; [by left |]. unfold log_ok. simpl.
    rewrite ?Hq, Hlog. tauto.
  - rewrite clear_pending_idle by done. split; simpl.
    + right. rewrite Ht. eexists; split; [done |]. by simpl.
    + unfold log_ok. simpl. by rewrite Hlog.
Qed.

(** ** The clock *)

Lemma elapse_idle pg ms c w :
  timers w = [] -> elapse pg ms (c, w) = (c, with_now (now w + ms) w).
Proof. destruct w as [n nh ts l]. simpl. by intros ->. Qed.

(** A timer that is not due yet stays in the queue. *)
Lemma elapse_early pg ms c w t :
  timers w = [t] -> now w + ms < due t ->
  elapse pg ms (c, w) = (c, with_now (now w + ms) w).
Proof.
  destruct w as [n nh ts l]. simpl. intros -> Hlt.
  assert (E : is_due (n + ms) t = false) by (apply Nat.leb_gt; lia).
  unfold elapse. simpl.
  rewrite filter_cons_False, filter_cons_True by (rewrite E; done). done.
Qed.

(** A timer that is due leaves the queue and its callback runs. *)
Lemma elapse_fire pg ms c w t :
  timers w = [t] -> due t <= now w + ms ->
  elapse pg ms (c, w)
  = callback pg (due t) t (c, with_now (now w + ms) (with_timers [] w)).
Proof.
  destruct w as [n nh ts l]. simpl. intros -> Hle.
  assert (E : is_due (n + ms) t = true) by (apply Nat.leb_le; lia).
  unfold elapse. simpl.
  rewrite filter_cons_True, filter_cons_False by (rewrite E; done). done.
Qed.

(** What the callback adds to the log: the write attempt, and after a
    first refusal for lack of room the console warning and the alert. *)
Definition callback_log (pg : page) (t : timer) (notified : bool) : list event :=
  let dataStr := JSON_stringify pg (saved_state t) in
  let thrown := setItem pg (due t) (saved_key t) dataStr in
  SetItem (saved_key t) dataStr thrown ::
  (if quota_failure (SetItem (saved_key t) dataStr thrown) && negb notified then
     [ConsoleWarn quota_warning; Alert quota_alert]
   else []).

Lemma callback_spec pg t c w :
  let cw' := callback pg (due t) t (c, w) in
  log cw'.2 = log w ++ callback_log pg t (quotaErrorNotified c) /\
  timers cw'.2 = timers w /\ now cw'.2 = now w /\
  next_handle cw'.2 = next_handle w /\
  key cw'.1 = key c /\ state cw'.1 = state c /\
  saveTimeoutRef cw'.1 = saveTimeoutRef c /\
  cleanup cw'.1 = cleanup c /\ mounted cw'.1 = mounted c /\
  quotaErrorNotified cw'.1
  = quotaErrorNotified c
    || quota_failure (SetItem (saved_key t) (JSON_stringify pg (saved_state t))
                        (setItem pg (due t) (saved_key t)
                           (JSON_stringify pg (saved_state t)))).
Proof.
  unfold callback, callback_log. simpl.
  destruct (setItem pg (due t) (saved_key t) _) as [e|]; simpl.
  - destruct (is_quota e), (quotaErrorNotified c) eqn:Hq; simpl;
      rewrite <- ?app_assoc; simpl; rewrite ?Hq; tauto.
  - rewrite orb_false_r. tauto.
Qed.

Lemma inv_elapse pg ms cw : inv cw -> inv (elapse pg ms cw).
Proof.
  destruct cw as [c w]. intros [Hp Hl]. simpl in Hp, Hl.
  destruct Hp as [E|(t & E & Hr & Hcl & Hm & Hq & Hk & Hs)].
  - rewrite elapse_idle by done. split; simpl; [by left |].
    unfold log_ok in *. by destruct w.
  - destruct (le_lt_dec (due t) (now w + ms)) as [Hle|Hlt].
    + rewrite (elapse_fire _ _ _ _ t) by done.
      pose proof (callback_spec pg t c (with_now (now w + ms) (with_timers [] w))) as H.
      cbv zeta in H.
      destruct (callback pg (due t) t _) as [c' w'].
      destruct H as (Hlog & Ht & _ & _ & _ & _ & _ & _ & _ & Hflag).
      simpl in Hlog, Ht, Hflag. split; simpl; [left; by rewrite Ht |].
      unfold log_ok in *. rewrite Hq in Hl, Hlog, Hflag. destruct Hl as [Ha Hf].
      rewrite Hflag, Ht, Hlog, alerts_app, existsb_app, Ha, Hf. simpl.
      unfold callback_log. simpl.
      destruct (setItem pg (due t) (saved_key t) _) as [e|]; simpl; [|done].
      destruct (is_quota e); simpl; done.
    + rewrite (elapse_early _ _ _ _ t) by done. split; simpl.
      * right. exists t. by destruct w.
      * unfold log_ok in *. by destruct w.
Qed.

#[local] Arguments run_cleanup : simpl never.
#[local] Arguments commit : simpl never.
#[local] Arguments elapse : simpl never.
#[local] Arguments callback : simpl never.

Lemma step_elapse pg cw ms : step pg cw (Elapse ms) = elapse pg ms cw.
Proof. by destruct cw. Qed.

Lemma step_commit pg c w a :
  mounted c = true ->
  step pg (c, w) (SetState a) = commit (key c) (next_state a (state c)) (c, w).
Proof. simpl. by intros ->. Qed.

Lemma inv_step pg cw i : inv cw -> inv (step pg cw i).
Proof.
  intros H. destruct i; [| |rewrite step_elapse; by apply inv_elapse|];
    destruct cw as [c w]; simpl.
  - destruct (mounted c) eqn:Hm; [by apply inv_commit | done].
  - destruct (mounted c) eqn:Hm; [by apply inv_commit | done].
  - destruct (mounted c) eqn:Hm; [|done].
    destruct H as [Hp Hl]. simpl in *.
    destruct (run_cleanup_clears c w Hp) as (w' & E & Ht & Hlog & _).
    rewrite E. split; simpl; [by left |].
    unfold log_ok in *. simpl. rewrite Hlog, Ht. destruct (quotaErrorNotified c); tauto.
Qed.

Lemma inv_run pg inputs : forall cw, inv cw -> inv (run pg cw inputs).
Proof.
  induction inputs as [|i inputs IH]; intros cw H; simpl; [done |].
  apply IH. by apply inv_step.
Qed.

Lemma inv_reachable pg k initialState cw0 inputs :
  usePersistentState pg k initialState = Some cw0 -> inv (run pg cw0 inputs).
Proof. intros H. apply inv_run. revert H. unfold usePersistentState.
  destruct (initializer pg k initialState).2 eqn:E; [done |].
  intros [= <-].
  destruct (LoadProps.no_write_no_alert _ (LoadProps.initializer_log pg k initialState))
    as (_ & Ha & Hf).
  split; simpl.
  - right. eexists; split; [done |]. by simpl.
  - unfold log_ok. simpl. done.
Qed.

Lemma inv_mount pg k initialState cw :
  usePersistentState pg k initialState = Some cw -> inv cw.
Proof. apply (inv_reachable pg k initialState cw []). Qed.

(** ** C3: the store after a write was refused for lack of room *)

(** [quotaErrorNotified] is set and no timer is pending. *)
Definition spent (cw : world) : Prop :=
  quotaErrorNotified cw.1 = true /\ timers cw.2 = [].

(** Nothing that happens to a spent store reaches the page. *)
Lemma spent_step pg cw i :
  spent cw -> spent (step pg cw i) /\ log (step pg cw i).2 = log cw.2.
Proof.
  destruct cw as [c w]. intros [Hq Ht]. simpl in Hq, Ht.
  assert (Hc : forall k s, spent (commit k s (c, w)) /\ log (commit k s (c, w)).2 = log w).
  { intros k s. unfold commit, run_cleanup.
    destruct (cleanup c); rewrite ?clear_pending_idle by done;
      unfold effect; simpl; rewrite Hq; done. }
  destruct i; [| |rewrite step_elapse|]; simpl.
  - destruct (mounted c); [apply Hc | done].
  - destruct (mounted c); [apply Hc | done].
  - rewrite elapse_idle by done. unfold spent. simpl. by destruct w.
  - destruct (mounted c); [|done]. unfold run_cleanup.
    destruct (cleanup c); rewrite ?clear_pending_idle by done; done.
Qed.

Lemma spent_run pg inputs : forall cw,
  spent cw -> spent (run pg cw inputs) /\ log (run pg cw inputs).2 = log cw.2.
Proof.
  induction inputs as [|i inputs IH]; intros cw H; simpl; [done |].
  destruct (spent_step pg cw i H) as [H' E].
  destruct (IH _ H') as [H'' E']. split; [done | congruence].
Qed.

(** C3.  Once a write of a mounted hook was refused for lack of room, the
    hook is in its [quotaErrorNotified] state and stays there whatever
    happens next (state replacements, renders, time passing): the log of
    the page does not grow any more, so no further write is attempted, and
    it holds exactly one alert. *)
Theorem quota_exceeded_is_terminal pg k initialState cw0 inputs more :
  usePersistentState pg k initialState = Some cw0 ->
  existsb quota_failure (log (run pg cw0 inputs).2) = true ->
  quotaErrorNotified (run pg (run pg cw0 inputs) more).1 = true /\
  log (run pg (run pg cw0 inputs) more).2 = log (run pg cw0 inputs).2 /\
  writes (log (run pg (run pg cw0 inputs) more).2)
  = writes (log (run pg cw0 inputs).2) /\
  List.length (alerts (log (run pg (run pg cw0 inputs) more).2)) = 1.
Proof.
  intros Hm Hfail.
  destruct (inv_reachable pg k initialState cw0 inputs Hm) as [_ Hl].
  unfold log_ok in Hl.
  destruct (quotaErrorNotified (run pg cw0 inputs).1) eqn:Hq;
    [|destruct Hl; congruence].
  destruct Hl as (Ht & Ha & _).
  destruct (spent_run pg more (run pg cw0 inputs)) as [[Hq' _] Hlog]; [done |].
  rewrite Hlog. done.
Qed.

Lemma quota_exceeded_is_terminal_witness :
  exists cw0,
    usePersistentState Demo.page_full "app" Demo.defaults = Some cw0 /\
    let cw := run Demo.page_full cw0 [Elapse 1000] in
    let cw' := run Demo.page_full cw
                 [SetState (Value (VObj [("name", VStr "Bea")])); Elapse 5000] in
    quotaErrorNotified cw'.1 = true /\
    log cw'.2 = log cw.2 /\
    writes (log cw'.2) = writes (log cw.2) /\
    List.length (alerts (log cw'.2)) = 1.
Proof.
  eexists. split; [vm_compute; reflexivity |].
  apply (quota_exceeded_is_terminal Demo.page_full "app" Demo.defaults);
    vm_compute; reflexivity.
Defined.

(** ** C2 and C9: one write per quiet period *)

(** The effect has just run for key [k] and state [s]: one timer is
    pending, due at [d], and its callback will write [s] under [k]. *)
Definition armed (cw : world) (k : string) (s : value) (d : nat) : Prop :=
  mounted cw.1 = true /\ quotaErrorNotified cw.1 = false /\
  cleanup cw.1 = true /\ key cw.1 = k /\ state cw.1 = s /\
  exists h, saveTimeoutRef cw.1 = Some h /\
            timers cw.2 = [{| handle := h; due := d; saved_key := k; saved_state := s |}].

Lemma armed_inv cw k s d : armed cw k s d -> pending_ok cw.1 cw.2.
Proof.
  intros (Hm & Hq & Hcl & Hk & Hs & h & Hr & Ht). right.
  eexists; split; [done |]. simpl. done.
Qed.

(** A committed render of a live hook arms a timer for the new state, one
    coalescing window from now, and cancels the one that was pending. *)
Lemma commit_arms k s cw :
  pending_ok cw.1 cw.2 -> mounted cw.1 = true -> quotaErrorNotified cw.1 = false ->
  armed (commit k s cw) k s (now cw.2 + delay) /\
  log (commit k s cw).2 = log cw.2 /\ now (commit k s cw).2 = now cw.2.
Proof.
  destruct cw as [c w]. simpl. intros Hp Hm Hq.
  destruct (run_cleanup_clears c w Hp) as (w' & E & Ht & Hlog & Hnow).
  unfold commit. rewrite E. unfold effect. simpl. rewrite Hq.
  rewrite clear_pending_idle by done. simpl. rewrite Ht, Hlog, Hnow.
  repeat split; try done. unfold armed. simpl. eauto 10.
Qed.

(** Before the timer is due nothing is written. *)
Lemma armed_early pg ms cw k s d :
  armed cw k s d -> now cw.2 + ms < d ->
  armed (elapse pg ms cw) k s d /\
  log (elapse pg ms cw).2 = log cw.2 /\
  now (elapse pg ms cw).2 = now cw.2 + ms.
Proof.
  destruct cw as [c w]. intros (Hm & Hq & Hcl & Hk & Hs & h & Hr & Ht) Hlt.
  simpl in *. rewrite (elapse_early pg ms c w _ Ht) by done.
  unfold armed. simpl. destruct w; simpl in *. eauto 12.
Qed.

(** When the timer is due the state it was armed for is written, once. *)
Lemma armed_late pg ms cw k s d :
  armed cw k s d -> d <= now cw.2 + ms ->
  state (elapse pg ms cw).1 = s /\
  mounted (elapse pg ms cw).1 = true /\
  timers (elapse pg ms cw).2 = [] /\
  exists thrown,
    writes (log (elapse pg ms cw).2)
    = writes (log cw.2) ++ [SetItem k (JSON_stringify pg s) thrown].
Proof.
  destruct cw as [c w]. intros (Hm & Hq & Hcl & Hk & Hs & h & Hr & Ht) Hle.
  simpl in Hm, Hq, Hcl, Hk, Hs, Hr, Ht, Hle.
  rewrite (elapse_fire pg ms c w _ Ht) by done.
  match goal with |- context [callback pg (due ?t) ?t ?x] =>
    pose proof (callback_spec pg t c x.2) as H; cbv zeta in H;
    change (c, x.2) with x in H;
    destruct (callback pg (due t) t x) as [c' w']
  end.
  destruct H as (Hlog & Ht' & _ & _ & _ & Hs' & _ & _ & Hm' & _).
  simpl in Hlog, Ht', Hs', Hm' |- *.
  repeat split; try congruence.
  eexists. rewrite Hlog, writes_app. f_equal.
  unfold callback_log. simpl. rewrite Hq. simpl.
  unfold writes. rewrite filter_cons_True by done.
  f_equal. by case_match.
Qed.

(** The replacements of a burst after the first: each comes [gap]
    milliseconds after the one before. *)
Fixpoint burst (rest : list (nat * action)) : list input :=
  match rest with
  | [] => []
  | (gap, a) :: rest' => Elapse gap :: SetState a :: burst rest'
  end.

Definition replaced (s : value) (actions : list action) : value :=
  fold_left (fun s a => next_state a s) actions s.

Lemma burst_keeps_armed pg rest : forall cw k s,
  armed cw k s (now cw.2 + delay) ->
  Forall (fun ga => ga.1 < delay) rest ->
  let cw' := run pg cw (burst rest) in
  armed cw' k (replaced s (rest.*2)) (now cw'.2 + delay) /\
  log cw'.2 = log cw.2.
Proof.
  induction rest as [|[gap a] rest IH]; intros cw k s Ha Hgaps; simpl; [done |].
  apply Forall_cons in Hgaps as [Hgap Hgaps]. simpl in Hgap.
  rewrite step_elapse.
  destruct (armed_early pg gap cw k s _ Ha) as (Ha1 & Hlog1 & Hnow1); [lia |].
  destruct (elapse pg gap cw) as [c1 w1] eqn:E1.
  pose proof Ha1 as (Hm & Hq & _ & Hk & Hs & _). simpl in Hm, Hq, Hk, Hs.
  rewrite step_commit by done.
  destruct (commit_arms (key c1) (next_state a (state c1)) (c1, w1))
    as (Ha2 & Hlog2 & Hnow2); [by apply (armed_inv _ _ _ _ Ha1) | done | done |].
  rewrite <- Hnow2, Hk, Hs in Ha2.
  destruct (IH _ _ _ Ha2 Hgaps) as [Ha3 Hlog3].
  rewrite Hk, Hs. split; [done |]. simpl in *. congruence.
Qed.

Lemma run_one pg cw i : run pg cw [i] = step pg cw i.
Proof. reflexivity. Qed.

Lemma run_app pg cw l1 l2 : run pg cw (l1 ++ l2) = run pg (run pg cw l1) l2.
Proof. apply fold_left_app. Qed.

(** C2.  A hook that is mounted and has not been refused a write for lack
    of room receives a burst of state replacements, each less than the
    coalescing window after the one before, and then nothing for at least
    the window.  Over the whole of it one write is attempted, and what it
    carries is the state of the last replacement. *)
Theorem burst_is_written_once pg k initialState cw0 inputs first rest quiet :
  usePersistentState pg k initialState = Some cw0 ->
  mounted (run pg cw0 inputs).1 = true ->
  quotaErrorNotified (run pg cw0 inputs).1 = false ->
  Forall (fun ga => ga.1 < delay) rest ->
  delay <= quiet ->
  let cw := run pg cw0 inputs in
  let final := replaced (state cw.1) (first :: rest.*2) in
  let cw' := run pg cw (SetState first :: burst rest ++ [Elapse quiet]) in
  state cw'.1 = final /\
  exists thrown,
    writes (log cw'.2)
    = writes (log cw.2) ++ [SetItem (key cw.1) (JSON_stringify pg final) thrown].
Proof.
  intros Hmount Hm Hq Hgaps Hquiet cw final cw'.
  destruct (inv_reachable pg k initialState cw0 inputs Hmount) as [Hp _].
  fold cw in Hp, Hm, Hq.
  subst cw'. change (SetState first :: burst rest ++ [Elapse quiet])
    with ([SetState first] ++ burst rest ++ [Elapse quiet]).
  rewrite !run_app, !run_one.
  destruct cw as [c w] eqn:Ecw. simpl in Hp, Hm, Hq.
  rewrite step_commit by done.
  destruct (commit_arms (key c) (next_state first (state c)) (c, w))
    as (Ha & Hlog & Hnow); [done | done | done |].
  rewrite <- Hnow in Ha.
  destruct (burst_keeps_armed pg rest _ _ _ Ha Hgaps) as [Ha' Hlog'].
  cbv zeta in Ha', Hlog'.
  rewrite step_elapse.
  destruct (armed_late pg quiet _ _ _ _ Ha') as (Hs & _ & _ & thrown & Hw); [lia |].
  subst final. simpl. split; [done |].
  exists thrown. rewrite Hw, Hlog', Hlog. done.
Qed.

Lemma burst_is_written_once_witness :
  exists cw0,
    usePersistentState Demo.page_empty "app" Demo.defaults = Some cw0 /\
    let cw := run Demo.page_empty cw0 [] in
    let first := Value (VObj [("name", VStr "Bea")]) in
    let rest := [(300, Updater (fun s => VObj (Props.assign (spread s) "n" (VStr "1"))));
                 (999, Value (VObj [("name", VStr "Cleo")]))] in
    let final := replaced (state cw.1) (first :: rest.*2) in
    let cw' := run Demo.page_empty cw (SetState first :: burst rest ++ [Elapse 1000]) in
    state cw'.1 = final /\
    exists thrown,
      writes (log cw'.2)
      = writes (log cw.2)
        ++ [SetItem (key cw.1) (JSON_stringify Demo.page_empty final) thrown].
Proof.
  eexists. split; [vm_compute; reflexivity |].
  apply (burst_is_written_once Demo.page_empty "app" Demo.defaults _ []).
  - vm_compute; reflexivity.
  - vm_compute; reflexivity.
  - vm_compute; reflexivity.
  - repeat constructor; unfold delay; simpl; lia.
  - unfold delay; lia.
Defined.

(** C9.  A hook that mounts and is then left alone, with no state
    replacement at all, attempts nothing before the coalescing window has
    elapsed, and once it has elapsed has attempted one write: that of the
    state the initialiser returned. *)
Theorem initial_state_is_written pg k initialState quiet :
  delay <= quiet ->
  exists cw s,
    usePersistentState pg k initialState = Some cw /\
    (initializer pg k initialState).2 = inr s /\ state cw.1 = s /\
    (forall early, early < delay -> writes (log (run pg cw [Elapse early]).2) = []) /\
    exists thrown,
      writes (log (run pg cw [Elapse quiet]).2)
      = [SetItem k (JSON_stringify pg s) thrown].
Proof.
  intros Hquiet.
  destruct (LoadProps.initializer_returns pg k initialState) as [s Hs].
  destruct (LoadProps.no_write_no_alert _ (LoadProps.initializer_log pg k initialState))
    as (Hw & _ & _).
  unfold usePersistentState. rewrite Hs.
  eexists _, s. split; [done |]. split; [done |]. split; [done |].
  match goal with |- context [run pg ?x _] => set (cw := x) end.
  assert (Ha : armed cw k s (now cw.2 + delay)).
  { unfold armed, cw. simpl. eauto 10. }
  assert (Hlog : writes (log cw.2) = []) by done.
  split.
  - intros early Hearly. rewrite run_one, step_elapse.
    destruct (armed_early pg early cw k s _ Ha) as (_ & E & _); [lia |].
    by rewrite E.
  - rewrite run_one, step_elapse.
    destruct (armed_late pg quiet cw k s _ Ha) as (_ & _ & _ & thrown & E); [lia |].
    exists thrown. by rewrite E, Hlog.
Qed.

Lemma initial_state_is_written_witness :
  exists cw s,
    usePersistentState Demo.page_empty "app" Demo.defaults = Some cw /\
    (initializer Demo.page_empty "app" Demo.defaults).2 = inr s /\ state cw.1 = s /\
    (forall early, early < delay ->
       writes (log (run Demo.page_empty cw [Elapse early]).2) = []) /\
    exists thrown,
      writes (log (run Demo.page_empty cw [Elapse 1500]).2)
      = [SetItem "app" (JSON_stringify Demo.page_empty s) thrown].
Proof.
  apply (initial_state_is_written Demo.page_empty "app" Demo.defaults 1500).
  unfold delay; lia.
Defined.

(** ** C8: a write refused for another reason *)

(** Every write attempt in the log [l] that failed for a reason other than
    lack of room is followed by a console message. *)
Definition failures_are_logged (l : list event) : Prop :=
  forall l1 k data error l2,
    l = l1 ++ SetItem k data (Some error) :: l2 ->
    is_quota error = false ->
    exists e, In e l2 /\ is_console e = true.

(** C8 fails for the logging.  On a page whose backend refuses writes with
    a [SecurityError], the write of the initial state fails and nothing is
    printed to the console for it: the [catch] clause of line 72 has no
    branch for such errors. *)
Lemma other_write_failure_not_logged :
  exists cw0,
    usePersistentState Demo.page_locked "app" Demo.defaults = Some cw0 /\
    log (run Demo.page_locked cw0 [Elapse 1000]).2
    = [GetItem "app";
       SetItem "app" "{name:Aria,tts:{enabled:true,pitch:#}}"
         (Some (DOMException "SecurityError"))] /\
    ~ failures_are_logged (log (run Demo.page_locked cw0 [Elapse 1000]).2).
Proof.
  eexists. split; [vm_compute; reflexivity |].
  split; [vm_compute; reflexivity |].
  intros H.
  destruct (H [GetItem "app"] "app" "{name:Aria,tts:{enabled:true,pitch:#}}"
              (DOMException "SecurityError") [])
    as (e & [] & _); vm_compute; reflexivity.
Qed.

(** C8, as the code has it.  When the pending timer of a mounted hook
    fires and the write is refused for a reason other than lack of room,
    the write attempt is all that reaches the page: nothing is printed to
    the console and no alert is shown; [quotaErrorNotified] stays unset;
    and the next state replacement arms a timer that attempts to write the
    new state. *)
Theorem other_write_failure_is_swallowed
    pg k initialState cw0 inputs t error ms :
  usePersistentState pg k initialState = Some cw0 ->
  timers (run pg cw0 inputs).2 = [t] ->
  due t <= now (run pg cw0 inputs).2 + ms ->
  setItem pg (due t) (saved_key t) (JSON_stringify pg (saved_state t)) = Some error ->
  is_quota error = false ->
  let cw := run pg cw0 inputs in
  let cw1 := run pg cw [Elapse ms] in
  log cw1.2
  = log cw.2 ++ [SetItem (saved_key t) (JSON_stringify pg (saved_state t)) (Some error)] /\
  quotaErrorNotified cw1.1 = false /\
  alerts (log cw1.2) = [] /\
  forall a quiet, delay <= quiet ->
    exists thrown,
      writes (log (run pg cw1 [SetState a; Elapse quiet]).2)
      = writes (log cw1.2)
        ++ [SetItem (key cw.1) (JSON_stringify pg (next_state a (state cw.1))) thrown].
Proof.
  intros Hmount Ht Hdue Hfail Hnq cw cw1.
  pose proof (inv_reachable pg k initialState cw0 inputs Hmount) as Hinv.
  fold cw in Hinv, Ht, Hdue.
  destruct Hinv as [[E|(t' & E & Hr & Hcl & Hm & Hq & Hk & Hs)] Hl];
    [congruence |].
  assert (t' = t) as -> by congruence.
  unfold log_ok in Hl. rewrite Hq in Hl. destruct Hl as [Ha _].
  assert (Hspec :
    log cw1.2 = log cw.2 ++ callback_log pg t false /\
    timers cw1.2 = [] /\ key cw1.1 = key cw.1 /\ state cw1.1 = state cw.1 /\
    mounted cw1.1 = true /\ quotaErrorNotified cw1.1 = false).
  { subst cw1. rewrite run_one, step_elapse.
    destruct cw as [c w]. simpl in E, Hdue, Hq, Hm |- *.
    rewrite (elapse_fire pg ms c w t E Hdue).
    match goal with |- context [callback pg (due t) t ?x] =>
      pose proof (callback_spec pg t c x.2) as H; cbv zeta in H;
      change (c, x.2) with x in H;
      destruct (callback pg (due t) t x) as [c' w']
    end.
    destruct H as (Hlog & Ht' & _ & _ & Hk' & Hs' & _ & _ & Hm' & Hq').
    simpl in Hlog, Ht', Hk', Hs', Hm', Hq' |- *.
    rewrite Hfail in Hq'. simpl in Hq'. rewrite Hnq, Hq in Hq'.
    rewrite Hq in Hlog. repeat split; (done || congruence). }
  destruct Hspec as (Hlog & Ht1 & Hk1 & Hs1 & Hm1 & Hq1).
  assert (Hcb : callback_log pg t false
                = [SetItem (saved_key t) (JSON_stringify pg (saved_state t)) (Some error)]).
  { unfold callback_log. simpl. rewrite Hfail. simpl. by rewrite Hnq. }
  rewrite Hcb in Hlog.
  split; [done |]. split; [done |].
  split; [by rewrite Hlog, alerts_app, Ha |].
  intros a quiet Hquiet.
  change [SetState a; Elapse quiet] with ([SetState a] ++ [Elapse quiet]).
  rewrite run_app, !run_one.
  destruct cw1 as [c1 w1]. simpl in Hm1, Hq1, Hk1, Hs1.
  rewrite step_commit, step_elapse by done.
  destruct (commit_arms (key c1) (next_state a (state c1)) (c1, w1))
    as (Harm & Hlog2 & Hnow2); [by left | done | done |].
  rewrite <- Hnow2 in Harm.
  destruct (armed_late pg quiet _ _ _ _ Harm) as (_ & _ & _ & thrown & Hw); [lia |].
  exists thrown. rewrite Hw, Hlog2, Hk1, Hs1. done.
Qed.

Lemma other_write_failure_is_swallowed_witness :
  exists cw0,
    usePersistentState Demo.page_locked "app" Demo.defaults = Some cw0 /\
    let t := {| handle := 1; due := 1000; saved_key := "app";
                saved_state := Demo.defaults |} in
    let error := DOMException "SecurityError" in
    let cw := run Demo.page_locked cw0 [] in
    let cw1 := run Demo.page_locked cw [Elapse 1000] in
    log cw1.2
    = log cw.2 ++ [SetItem (saved_key t)
                     (JSON_stringify Demo.page_locked (saved_state t)) (Some error)] /\
    quotaErrorNotified cw1.1 = false /\
    alerts (log cw1.2) = [] /\
    forall a quiet, delay <= quiet ->
      exists thrown,
        writes (log (run Demo.page_locked cw1 [SetState a; Elapse quiet]).2)
        = writes (log cw1.2)
          ++ [SetItem (key cw.1)
                (JSON_stringify Demo.page_locked (next_state a (state cw.1))) thrown].
Proof.
  eexists. split; [vm_compute; reflexivity |].
  apply (other_write_failure_is_swallowed Demo.page_locked "app" Demo.defaults _ []
           {| handle := 1; due := 1000; saved_key := "app";
              saved_state := Demo.defaults |}
           (DOMException "SecurityError") 1000).
  - vm_compute; reflexivity.
  - vm_compute; reflexivity.
  - vm_compute; lia.
  - vm_compute; reflexivity.
  - vm_compute; reflexivity.
Defined.

(** ** Writes in separate windows, and disposal *)

Lemma armed_late_flag pg ms cw k s d :
  armed cw k s d -> d <= now cw.2 + ms ->
  key (elapse pg ms cw).1 = k /\
  quotaErrorNotified (elapse pg ms cw).1
  = quota_failure (SetItem k (JSON_stringify pg s) (setItem pg d k (JSON_stringify pg s))).
Proof.
  destruct cw as [c w]. intros (Hm & Hq & Hcl & Hk & Hs & h & Hr & Ht) Hle.
  simpl in Hm, Hq, Hcl, Hk, Hs, Hr, Ht, Hle.
  rewrite (elapse_fire pg ms c w _ Ht) by done.
  match goal with |- context [callback pg (due ?t) ?t ?x] =>
    pose proof (callback_spec pg t c x.2) as H; cbv zeta in H;
    change (c, x.2) with x in H;
    destruct (callback pg (due t) t x) as [c' w']
  end.
  destruct H as (_ & _ & _ & _ & Hkey & _ & _ & _ & _ & Hflag).
  simpl in Hkey, Hflag |- *. by rewrite Hkey, Hflag, Hq.
Qed.

(** X2.  Two state replacements more than the coalescing window apart,
    the first of which the backend does not refuse for lack of room, are
    both written, in the order they were issued, each with its own
    state. *)
Theorem separate_windows_write_in_order
    pg k initialState cw0 inputs a1 a2 quiet1 quiet2 :
  usePersistentState pg k initialState = Some cw0 ->
  mounted (run pg cw0 inputs).1 = true ->
  quotaErrorNotified (run pg cw0 inputs).1 = false ->
  delay <= quiet1 -> delay <= quiet2 ->
  let cw := run pg cw0 inputs in
  let s1 := next_state a1 (state cw.1) in
  let s2 := next_state a2 s1 in
  quota_failure (SetItem (key cw.1) (JSON_stringify pg s1)
                   (setItem pg (now cw.2 + delay) (key cw.1) (JSON_stringify pg s1)))
  = false ->
  exists thrown1 thrown2,
    writes (log (run pg cw [SetState a1; Elapse quiet1; SetState a2; Elapse quiet2]).2)
    = writes (log cw.2)
      ++ [SetItem (key cw.1) (JSON_stringify pg s1) thrown1;
          SetItem (key cw.1) (JSON_stringify pg s2) thrown2].
Proof.
  intros Hmount Hm Hq Hq1 Hq2 cw s1 s2 Hok.
  destruct (inv_reachable pg k initialState cw0 inputs Hmount) as [Hp _].
  fold cw in Hp, Hm, Hq.
  change [SetState a1; Elapse quiet1; SetState a2; Elapse quiet2]
    with ([SetState a1] ++ [Elapse quiet1] ++ [SetState a2] ++ [Elapse quiet2]).
  rewrite !run_app, !run_one.
  destruct cw as [c w] eqn:Ecw. simpl in Hp, Hm, Hq, s1. cbn [fst snd] in Hok.
  rewrite step_commit, !step_elapse by done. fold s1.
  destruct (commit_arms (key c) s1 (c, w)) as (Ha & Hlog & Hnow); [done | done | done |].
  change (now (c, w).2) with (now w) in Ha, Hnow.
  change (log (c, w).2) with (log w) in Hlog.
  destruct (armed_late pg quiet1 _ _ _ _ Ha) as (Hs1 & Hm1 & Ht1 & thrown1 & Hw1);
    [lia |].
  destruct (armed_late_flag pg quiet1 _ _ _ _ Ha) as [Hk1 Hflag]; [lia |].
  rewrite Hok in Hflag.
  destruct (elapse pg quiet1 _) as [c1 w1].
  simpl in Hs1, Hm1, Ht1, Hw1, Hflag, Hk1.
  rewrite step_commit by done.
  destruct (commit_arms (key c1) (next_state a2 (state c1)) (c1, w1))
    as (Ha2 & Hlog2 & Hnow2); [by left | done | done |].
  rewrite <- Hnow2 in Ha2.
  destruct (armed_late pg quiet2 _ _ _ _ Ha2) as (_ & _ & _ & thrown2 & Hw2); [lia |].
  exists thrown1, thrown2.
  rewrite Hw2, Hlog2. simpl. rewrite Hw1, Hlog, Hk1, Hs1, <- app_assoc. done.
Qed.

Lemma separate_windows_write_in_order_witness :
  exists cw0,
    usePersistentState Demo.page_empty "app" Demo.defaults = Some cw0 /\
    let cw := run Demo.page_empty cw0 [Elapse 1000] in
    let a1 := Value (VObj [("name", VStr "Bea")]) in
    let a2 := Value (VObj [("name", VStr "Cleo")]) in
    let s1 := next_state a1 (state cw.1) in
    let s2 := next_state a2 s1 in
    exists thrown1 thrown2,
      writes (log (run Demo.page_empty cw
                     [SetState a1; Elapse 1000; SetState a2; Elapse 2500]).2)
      = writes (log cw.2)
        ++ [SetItem (key cw.1) (JSON_stringify Demo.page_empty s1) thrown1;
            SetItem (key cw.1) (JSON_stringify Demo.page_empty s2) thrown2].
Proof.
  eexists. split; [vm_compute; reflexivity |].
  apply (separate_windows_write_in_order Demo.page_empty "app" Demo.defaults _
           [Elapse 1000]).
  - vm_compute; reflexivity.
  - vm_compute; reflexivity.
  - vm_compute; reflexivity.
  - unfold delay; lia.
  - unfold delay; lia.
  - vm_compute; reflexivity.
Defined.

(** The hook was unmounted and no timer is pending. *)
Definition disposed (cw : world) : Prop :=
  mounted cw.1 = false /\ timers cw.2 = [].

Lemma disposed_step pg cw i :
  disposed cw -> disposed (step pg cw i) /\ log (step pg cw i).2 = log cw.2.
Proof.
  destruct cw as [c w]. intros [Hm Ht]. simpl in Hm, Ht.
  destruct i; [| |rewrite step_elapse|]; simpl; rewrite ?Hm; try done.
  rewrite elapse_idle by done. unfold disposed. simpl. by destruct w.
Qed.

(** X3.  Unmounting cancels the pending write: whatever the state of a
    mounted hook, after the cleanup of line 83 has run nothing reaches the
    page any more, however much time passes. *)
Theorem unmount_cancels_pending_write pg k initialState cw0 inputs more :
  usePersistentState pg k initialState = Some cw0 ->
  mounted (run pg cw0 inputs).1 = true ->
  log (run pg (run pg cw0 inputs) (Unmount :: more)).2 = log (run pg cw0 inputs).2.
Proof.
  intros Hmount Hm.
  destruct (inv_reachable pg k initialState cw0 inputs Hmount) as [Hp _].
  set (cw := run pg cw0 inputs) in *.
  assert (Hd : disposed (step pg cw Unmount) /\ log (step pg cw Unmount).2 = log cw.2).
  { destruct cw as [c w]. simpl in Hm, Hp |- *. rewrite Hm.
    destruct (run_cleanup_clears c w Hp) as (w' & E & Ht & Hlog & _).
    rewrite E. done. }
  destruct Hd as [Hd Hlog].
  change (Unmount :: more) with ([Unmount] ++ more). rewrite run_app, run_one.
  rewrite <- Hlog. clear Hlog.
  generalize dependent (step pg cw Unmount). clear.
  induction more as [|i more IH]; intros cw Hd; [done |].
  simpl. destruct (disposed_step pg cw i Hd) as [Hd' Hlog'].
  rewrite (IH _ Hd'). done.
Qed.

Lemma unmount_cancels_pending_write_witness :
  exists cw0,
    usePersistentState Demo.page_empty "app" Demo.defaults = Some cw0 /\
    log (run Demo.page_empty
           (run Demo.page_empty cw0 [SetState (Value (VObj [("name", VStr "Bea")]))])
           (Unmount :: [Elapse 5000])).2
    = log (run Demo.page_empty cw0
             [SetState (Value (VObj [("name", VStr "Bea")]))]).2.
Proof.
  eexists. split; [vm_compute; reflexivity |].
  apply (unmount_cancels_pending_write Demo.page_empty "app" Demo.defaults);
    vm_compute; reflexivity.
Defined.

End PersistProps.

(* ===================================================================== *)
(** * What reconciliation copies and what it shares *)
(* ===================================================================== *)

Module HeapProps.
Import Props Heap.

Definition is_structure (v : value) : bool :=
  match v with
  | VObjectPrototype | VRef _ => true
  | _ => false
  end.

(** A reference leads to an object of the store. *)
Definition in_heap (h : heap) (v : value) : bool :=
  match v with
  | VRef l => Nat.ltb l (List.length h)
  | _ => true
  end.

(** No object of the store refers outside of it. *)
Definition closed (h : heap) : bool :=
  forallb (fun c => forallb (fun kv => in_heap h kv.2) (cell_props c)) h.

(** The result [r] of a merge, in the store [h'] the merge left, is
    independent of the defaults [D]: no assignment to a field of the
    result, or of a structure nested in it at any depth, changes what can
    be read from [D]. *)
Definition independent (h : heap) (D : value) (h' : heap) (r : value) : Prop :=
  forall p key x h'',
    write h' r p key x = Some h'' ->
    forall q, read h'' D q = read h D q.

(** The same for the fields of the result object itself. *)
Definition independent_at_top (h : heap) (D : value) (h' : heap) (r : value) : Prop :=
  forall key x h'',
    write h' r [] key x = Some h'' ->
    forall q, read h'' D q = read h D q.

(** The defaults [{a: {x: "old"}}]: the nested structure is object 0, the
    defaults are object 1. *)
Definition sample : heap :=
  [CObj [("x", VStr "old")]; CObj [("a", VRef 0)]].

Example merge_null_sample :
  mergeDefaults 1 VNull (VRef 1) sample
  = Some (VRef 2, sample ++ [CObj [("a", VRef 0)]]).
Proof. reflexivity. Qed.

(** C6 fails for nested structures.  [mergeDefaults(null, D)] for
    [D = {a: {x: "old"}}] returns a new object whose field [a] is the very
    object [D.a]: after [result.a.x = "new"], [D.a.x] reads ["new"]. *)
Lemma merge_null_shares_nested :
  exists r h',
    mergeDefaults 1 VNull (VRef 1) sample = Some (r, h') /\
    (exists h'', write h' r ["a"] "x" (VStr "new") = Some h'' /\
                 read sample (VRef 1) ["a"; "x"] = VStr "old" /\
                 read h'' (VRef 1) ["a"; "x"] = VStr "new") /\
    ~ independent sample (VRef 1) h' r.
Proof.
  eexists _, _. split; [reflexivity |]. split.
  - eexists. split; [reflexivity |]. split; reflexivity.
  - intros H.
    specialize (H ["a"] "x" (VStr "new") _ eq_refl ["a"; "x"]).
    vm_compute in H. discriminate.
Qed.

Lemma in_heap_get h c key :
  forallb (fun kv => in_heap h kv.2) (cell_props c) = true ->
  in_heap h (get_own (cell_props c) key) = true.
Proof.
  intros Hall. unfold get_own.
  destruct (own (cell_props c) key) as [v|] eqn:E; [|done].
  apply MergeProps.own_In in E. rewrite forallb_forall in Hall.
  apply (Hall (key, v) E).
Qed.

(** Reading from a value of a closed store only looks at that store. *)
Lemma read_stable h h2 q : forall v,
  closed h = true ->
  (forall l, l < List.length h -> h2 !! l = h !! l) ->
  in_heap h v = true ->
  read h2 v q = read h v q.
Proof.
  induction q as [|k q IH]; intros v Hc Hsame Hv; [done |].
  destruct v as [| | | | | | |l]; try done. simpl in Hv |- *.
  apply Nat.ltb_lt in Hv. rewrite (Hsame l Hv).
  destruct (h !! l) as [c|] eqn:El; [|done].
  apply IH; try done. apply in_heap_get.
  unfold closed in Hc. rewrite forallb_forall in Hc.
  apply Hc. apply list_elem_of_In. by eapply list_elem_of_lookup_2.
Qed.

(** Line 8 in the store: one new object, holding the fields of the
    defaults. *)
Lemma merge_unusable_alloc budget h L D c :
  is_structure L = false -> h !! D = Some c ->
  mergeDefaults (S budget) L (VRef D) h
  = Some (VRef (List.length h), h ++ [CObj (cell_props c)]).
Proof.
  intros HL HD. simpl.
  assert (negb (truthy L) || negb (String.eqb (typeof L) "object") = true) as ->
    by (destruct L; simpl in *; rewrite ?orb_true_r; done).
  unfold spread, own_props, load, alloc, mbind, mret, M_bind, M_ret. by rewrite HD.
Qed.

(** C6, as the code has it.  For a loaded value that is [null],
    [undefined] or a primitive, [mergeDefaults] returns a new object, not
    the defaults object, whose fields read as the fields of the defaults
    do; assigning to a field of the returned object changes nothing that
    can be read from the defaults.  (The values of the fields are the
    defaults' own: a nested structure is shared, not copied.) *)
Theorem merge_unusable_is_shallow_copy budget h L D c :
  is_structure L = false ->
  h !! D = Some c ->
  closed h = true ->
  exists r h',
    mergeDefaults (S budget) L (VRef D) h = Some (VRef r, h') /\
    r <> D /\ h !! r = None /\
    (forall key, read h' (VRef r) [key] = read h (VRef D) [key]) /\
    independent_at_top h (VRef D) h' (VRef r).
Proof.
  intros HL HD Hc.
  exists (List.length h), (h ++ [CObj (cell_props c)]).
  split; [by apply merge_unusable_alloc |].
  assert (HDlt : D < List.length h) by (by eapply lookup_lt_Some).
  split; [lia |]. split; [by apply lookup_ge_None_2 |]. split.
  - intros key. simpl. rewrite HD.
    by rewrite lookup_app_r, Nat.sub_diag by done.
  - intros key x h'' Hw q. unfold write in Hw. simpl in Hw.
    unfold set_prop, load, store, mbind, M_bind in Hw.
    rewrite lookup_app_r, Nat.sub_diag in Hw by done. simpl in Hw.
    rewrite lookup_app_r, Nat.sub_diag in Hw by done. simpl in Hw.
    injection Hw as <-.
    apply read_stable; [done | | by apply Nat.ltb_lt].
    intros l Hl. rewrite list_lookup_insert_ne by lia. by apply lookup_app_l.
Qed.

Lemma merge_unusable_is_shallow_copy_witness :
  exists r h',
    mergeDefaults 1 VNull (VRef 1) sample = Some (VRef r, h') /\
    r <> 1 /\ sample !! r = None /\
    (forall key, read h' (VRef r) [key] = read sample (VRef 1) [key]) /\
    independent_at_top sample (VRef 1) h' (VRef r).
Proof.
  apply (merge_unusable_is_shallow_copy 0 sample VNull 1 (CObj [("a", VRef 0)]));
    reflexivity.
Defined.

End HeapProps.

(* ===================================================================== *)
(** * The two readings of [mergeDefaults] agree *)
(* ===================================================================== *)

(** [Heap.mergeDefaults] works on objects with identity, [Merge.mergeDefaults]
    on the trees they stand for.  This module reads a value of the store
    as a tree and shows that the first refines the second. *)
Module Refine.
Import Props Heap.

(** The tree a value of the store stands for, read to the given depth.
    [Object.prototype] has no enumerable property. *)
Fixpoint snapshot (depth : nat) (h : heap) (v : value) : option Js.value :=
  match depth with
  | 0 => None
  | S depth =>
      match v with
      | VUndefined => Some Js.VUndefined
      | VNull => Some Js.VNull
      | VBool b => Some (Js.VBool b)
      | VNum n => Some (Js.VNum n)
      | VStr s => Some (Js.VStr s)
      | VFun name => Some (Js.VFun name)
      | VObjectPrototype => Some (Js.VObj [])
      | VRef l =>
          match h !! l with
          | Some (CObj fields) =>
              Js.VObj <$> mapM (fun kv => pair kv.1 <$> snapshot depth h kv.2) fields
          | Some (CArr elems) =>
              Js.VArr <$> mapM (snapshot depth h) elems
          | None => None
          end
      end
  end.

Example snapshot_sample :
  snapshot 3 HeapProps.sample (VRef 1)
  = Some (Js.VObj [("a", Js.VObj [("x", Js.VStr "old")])]).
Proof. reflexivity. Qed.

(** The fields of an object stand for the fields of a tree, name by
    name. *)
Definition fields_as (depth : nat) (h : heap)
    (fields : list (string * value)) (fs : list (string * Js.value)) : Prop :=
  Forall2 (fun kv kv' => kv.1 = kv'.1 /\ snapshot depth h kv.2 = Some kv'.2) fields fs.

Lemma fields_as_mapM depth h fields fs :
  mapM (fun kv => pair kv.1 <$> snapshot depth h kv.2) fields = Some fs <->
  fields_as depth h fields fs.
Proof.
  rewrite mapM_Some. unfold fields_as. split; intros H.
  - eapply Forall2_impl; [exact H |]. intros [k v] [k' v'] E. simpl in *.
    destruct (snapshot depth h v); simpl in E; [|done]. by injection E as -> ->.
  - eapply Forall2_impl; [exact H |]. intros [k v] [k' v'] [-> E]. simpl in *.
    by rewrite E.
Qed.

Lemma snapshot_obj depth h l fields fs :
  h !! l = Some (CObj fields) ->
  fields_as depth h fields fs ->
  snapshot (S depth) h (VRef l) = Some (Js.VObj fs).
Proof.
  intros Hl Hf. simpl. rewrite Hl.
  apply fields_as_mapM in Hf. by rewrite Hf.
Qed.

Lemma snapshot_obj_inv depth h l fs :
  snapshot depth h (VRef l) = Some (Js.VObj fs) ->
  exists depth' fields, depth = S depth' /\ h !! l = Some (CObj fields) /\
                        fields_as depth' h fields fs.
Proof.
  destruct depth as [|depth]; [done |]. simpl.
  destruct (h !! l) as [[fields|elems]|] eqn:E; [| |done].
  - destruct (mapM _ fields) as [fs'|] eqn:Em; [|done]. intros [= <-].
    exists depth, fields. repeat split; try done. by apply fields_as_mapM.
  - by destruct (mapM _ elems).
Qed.

(** ** Stores that grow *)

Definition cell_values (c : cell) : list value :=
  match c with
  | CObj fields => fields.*2
  | CArr elems => elems
  end.

(** [v] is held by some object of [h]. *)
Definition stored (h : heap) (v : value) : Prop :=
  exists l c, h !! l = Some c /\ v ∈ cell_values c.

(** Every reference held in [h] leads to an object of [h]. *)
Definition closed (h : heap) : Prop :=
  forall l, stored h (VRef l) -> l < List.length h.

(** [h'] has the objects of [h], unchanged, and possibly more. *)
Definition frame (h h' : heap) : Prop :=
  forall l, l < List.length h -> h' !! l = h !! l.

(** What the objects of [h'] hold was held in [h] already, or is a
    reference to an object made at [b] or later. *)
Definition prov (h : heap) (b : nat) (h' : heap) : Prop :=
  forall v, stored h' v ->
    stored h v \/ exists l, v = VRef l /\ b <= l < List.length h'.

Lemma frame_length h h' : frame h h' -> List.length h <= List.length h'.
Proof.
  intros Hf. destruct (le_lt_dec (List.length h) (List.length h')) as [|Hlt]; [done |].
  exfalso. destruct h as [|c h0] using rev_ind.
  - simpl in Hlt. lia.
  - rewrite length_app in Hlt. simpl in Hlt.
    specialize (Hf (List.length h0)). rewrite length_app in Hf. simpl in Hf.
    specialize (Hf ltac:(lia)).
    rewrite lookup_app_r, Nat.sub_diag in Hf by done. simpl in Hf.
    apply lookup_lt_Some in Hf. lia.
Qed.

Lemma frame_refl h : frame h h.
Proof. by intros l _. Qed.

Lemma frame_trans h1 h2 h3 : frame h1 h2 -> frame h2 h3 -> frame h1 h3.
Proof.
  intros H12 H23 l Hl. rewrite H23, H12; [done | done |].
  pose proof (frame_length _ _ H12). lia.
Qed.

Lemma frame_alloc h c : frame h (h ++ [c]).
Proof. intros l Hl. by apply lookup_app_l. Qed.

Lemma frame_insert h r c : List.length h <= r -> frame h (<[r := c]> h).
Proof. intros Hr l Hl. (* out of range: nothing changes *)
  rewrite list_lookup_insert_ne by lia. done.
Qed.

Lemma mapM_ext_in {A B} (f g : A -> option B) (l : list A) :
  (forall x, x ∈ l -> f x = g x) -> mapM f l = mapM g l.
Proof.
  induction l as [|x l IH]; intros H; simpl; [done |].
  rewrite (H x) by left. rewrite IH; [done |]. intros y Hy. apply H. by right.
Qed.

(** A snapshot that succeeds only looks at objects that exist, so it is
    the same in a store that has grown. *)
Lemma snapshot_frame h h' n : forall v x,
  frame h h' -> snapshot n h v = Some x -> snapshot n h' v = Some x.
Proof.
  induction n as [|n IH]; intros v x Hf; [done |].
  destruct v as [| | | | | | |l]; try done. simpl.
  destruct (h !! l) as [c|] eqn:E; [|done].
  rewrite (Hf l) by (by eapply lookup_lt_Some). rewrite E.
  destruct c as [fields|elems].
  - destruct (mapM _ fields) as [fs|] eqn:Em; [|done]. intros [= <-].
    apply fields_as_mapM in Em.
    assert (Em' : fields_as n h' fields fs).
    { eapply Forall2_impl; [exact Em |]. intros kv kv' [? ?]. split; eauto. }
    apply fields_as_mapM in Em'. by rewrite Em'.
  - destruct (mapM _ elems) as [xs|] eqn:Em; [|done]. intros [= <-].
    apply mapM_Some in Em.
    assert (Em' : Forall2 (fun v x => snapshot n h' v = Some x) elems xs).
    { eapply Forall2_impl; [exact Em |]. eauto. }
    apply mapM_Some in Em'. by rewrite Em'.
Qed.

Lemma elem_of_indexed_values {A} (xs : list A) : forall i, (indexed i xs).*2 = xs.
Proof. induction xs as [|x xs IH]; intros i; simpl; [done |]. by rewrite IH. Qed.

Lemma cell_props_values c : (cell_props c).*2 = cell_values c.
Proof. destruct c; simpl; [done |]. apply elem_of_indexed_values. Qed.

(** Assigning to a field of an object that nothing refers to does not
    change the snapshot of anything else. *)
Lemma snapshot_insert h r c n : forall v,
  (forall l, stored h (VRef l) -> l <> r) -> v <> VRef r ->
  snapshot n (<[r := c]> h) v = snapshot n h v.
Proof.
  induction n as [|n IH]; intros v Hun Hv; [done |].
  destruct v as [| | | | | | |l]; try done. simpl.
  rewrite list_lookup_insert_ne by congruence.
  destruct (h !! l) as [[fields|elems]|] eqn:E; [| |done].
  - f_equal. apply mapM_ext_in. intros [k v] Hin. simpl. f_equal.
    apply IH; [done |]. intros ->. apply (Hun r); [|done].
    exists l, (CObj fields). split; [done |]. simpl.
    apply list_elem_of_fmap. by exists (k, VRef r).
  - f_equal. apply mapM_ext_in. intros v Hin.
    apply IH; [done |]. intros ->. apply (Hun r); [|done].
    by exists l, (CArr elems).
Qed.

(** ** The loop *)

(** The body of the loop of [Heap.mergeDefaults], for the result object
    [result]. *)
Definition body (budget : nat) (result : loc) (kd : string * value) : M unit :=
  let key := kd.1 in
  let defaultValue := kd.2 in
  loadedValue ← get_prop result key;
  if is_undefined loadedValue || is_null loadedValue then
    set_prop result key defaultValue
  else
    arr ← isArray defaultValue;
    if String.eqb (typeof defaultValue) "object"
       && negb (is_null defaultValue)
       && negb arr then
      merged ← mergeDefaults budget loadedValue defaultValue;
      set_prop result key merged
    else
      mret tt.

Lemma mergeDefaults_S budget loaded defaults :
  mergeDefaults (S budget) loaded defaults =
  if negb (truthy loaded) || negb (String.eqb (typeof loaded) "object") then
    copy ← spread defaults; mret (VRef copy)
  else
    result ← spread loaded;
    keys ← own_props defaults;
    for_each keys (body budget result);;
    mret (VRef result).
Proof. reflexivity. Qed.

(** The step of the loop of [Merge.mergeDefaults]. *)
Definition pure_step (acc : Js.props) (kd : string * Js.value) : Js.props :=
  Merge.merge_field (fun lv => Merge.mergeDefaults lv kd.2) kd.1 kd.2 acc.

Lemma pure_mergeDefaults_obj l fs :
  Merge.mergeDefaults l (Js.VObj fs) =
  if negb (Js.truthy l) || negb (String.eqb (Js.typeof l) "object")
  then Js.VObj fs
  else Js.VObj (fold_left pure_step fs (Js.spread l)).
Proof. reflexivity. Qed.

Lemma fields_as_own m h rs acc k :
  fields_as m h rs acc ->
  match own rs k with
  | Some v => exists x, own acc k = Some x /\ snapshot m h v = Some x
  | None => own acc k = None
  end.
Proof.
  induction 1 as [|[k1 v1] [k2 x2] rs acc [Hk Hs] _ IH]; simpl in *; [done |].
  subst k2. destruct (String.eqb k1 k); eauto.
Qed.

Lemma fields_as_update m h rs acc k v x :
  fields_as m h rs acc -> snapshot m h v = Some x ->
  fields_as m h (update rs k v) (update acc k x).
Proof.
  induction 1 as [|[k1 v1] [k2 x2] rs acc [Hk Hs] Hrest IH]; simpl in *; intros Hv.
  - constructor.
  - subst k2. destruct (String.eqb k1 k).
    + constructor; [done | exact Hrest].
    + constructor; [done | by apply IH].
Qed.

Lemma fields_as_add_index m h rs acc k n v x :
  fields_as m h rs acc -> snapshot m h v = Some x ->
  fields_as m h (add_index rs k n v) (add_index acc k n x).
Proof.
  induction 1 as [|[k1 v1] [k2 x2] rs acc [Hk Hs] Hrest IH]; simpl in *; intros Hv.
  - by repeat constructor.
  - subst k2.
    destruct (array_index k1) as [i|]; [destruct (i <? n)%N |];
      repeat (constructor; [done |]); auto; by apply IH.
Qed.

Lemma fields_as_add m h rs acc k v x :
  fields_as m h rs acc -> snapshot m h v = Some x ->
  fields_as m h (add rs k v) (add acc k x).
Proof.
  intros Hf Hv. unfold add. destruct (array_index k).
  - by apply fields_as_add_index.
  - apply Forall2_app; [done |]. by repeat constructor.
Qed.

Lemma fields_as_assign m h rs acc k v x :
  fields_as m h rs acc -> snapshot m h v = Some x ->
  fields_as m h (assign rs k v) (assign acc k x).
Proof.
  intros Hf Hv. unfold assign.
  pose proof (fields_as_own m h rs acc k Hf) as Hown.
  destruct (own rs k).
  - destruct Hown as (y & -> & _). by apply fields_as_update.
  - rewrite Hown. destruct (String.eqb k "__proto__"); [done |].
    by apply fields_as_add.
Qed.

Lemma elem_of_update_values {A} (o : list (string * A)) k v w :
  w ∈ (update o k v).*2 -> w ∈ o.*2 \/ w = v.
Proof.
  induction o as [|[k1 v1] o IH]; simpl; [auto |].
  destruct (String.eqb k1 k); simpl; rewrite !elem_of_cons; intuition.
Qed.

Lemma elem_of_add_index_values {A} (o : list (string * A)) k n v w :
  w ∈ (add_index o k n v).*2 -> w ∈ o.*2 \/ w = v.
Proof.
  induction o as [|[k1 v1] o IH]; simpl.
  - rewrite list_elem_of_singleton. auto.
  - destruct (array_index k1) as [i|]; [destruct (i <? n)%N |]; simpl;
      rewrite !elem_of_cons; intuition.
Qed.

Lemma elem_of_assign_values {A} (o : list (string * A)) k v w :
  w ∈ (assign o k v).*2 -> w ∈ o.*2 \/ w = v.
Proof.
  unfold assign, add. destruct (own o k); [apply elem_of_update_values |].
  destruct (String.eqb k "__proto__"); [auto |].
  destruct (array_index k); [apply elem_of_add_index_values |].
  rewrite fmap_app, elem_of_app. simpl. rewrite list_elem_of_singleton. auto.
Qed.

(** A snapshot keeps what the tests of lines 8, 17 and 20-22 look at. *)
Lemma snapshot_kind m h v x :
  snapshot m h v = Some x ->
  is_undefined v = Js.is_undefined x /\ is_null v = Js.is_null x /\
  truthy v = Js.truthy x /\ typeof v = Js.typeof x.
Proof.
  destruct m as [|m]; [done |]. destruct v as [| | | | | | |l]; simpl;
    try (intros [= <-]; done).
  destruct (h !! l) as [[fields|elems]|]; [| |done].
  - destruct (mapM _ fields); [|done]. by intros [= <-].
  - destruct (mapM _ elems); [|done]. by intros [= <-].
Qed.

Lemma isArray_snapshot m h v x :
  snapshot m h v = Some x -> isArray v h = Some (Js.isArray x, h).
Proof.
  destruct m as [|m]; [done |]. destruct v as [| | | | | | |l]; simpl;
    try (intros [= <-]; done).
  unfold load, mbind, M_bind, mret, M_ret.
  destruct (h !! l) as [[fields|elems]|]; [| |done].
  - destruct (mapM _ fields); [|done]. by intros [= <-].
  - destruct (mapM _ elems); [|done]. by intros [= <-].
Qed.

Lemma fields_as_stable m h h' rs acc :
  fields_as m h rs acc ->
  (forall v, v ∈ rs.*2 -> snapshot m h' v = snapshot m h v) ->
  fields_as m h' rs acc.
Proof.
  induction 1 as [|[k1 v1] [k2 x2] rs acc [Hk Hs] Hrest IH]; intros Hsame.
  - constructor.
  - constructor.
    + split; [done |]. simpl in *. rewrite Hsame; [done | by left].
    + apply IH. intros v Hv. apply Hsame. by right.
Qed.

Section Loop.

Variable m : nat.

Hypothesis IH : forall h L D l fs,
  closed h -> snapshot m h L = Some l -> snapshot m h D = Some (Js.VObj fs) ->
  exists r h',
    mergeDefaults m L D h = Some (VRef r, h') /\ List.length h <= r /\
    frame h h' /\ prov h (List.length h) h' /\
    snapshot m h' (VRef r) = Some (Merge.mergeDefaults l (Js.VObj fs)).

(** The store before the result object was made; the result object is
    the next one. *)
Variable h : heap.
Hypothesis Hclosed : closed h.

Definition loop_inv (h1 : heap) (acc : Js.props) : Prop :=
  frame h h1 /\ prov h (S (List.length h)) h1 /\
  exists rs, h1 !! List.length h = Some (CObj rs) /\ fields_as m h1 rs acc.

Lemma inv_closed h1 acc : loop_inv h1 acc -> closed h1.
Proof.
  intros (Hf & Hp & _) l Hl. destruct (Hp _ Hl) as [Hs|(l' & [= <-] & ?)]; [|lia].
  pose proof (frame_length _ _ Hf). specialize (Hclosed l Hs). lia.
Qed.

Lemma inv_unref h1 acc :
  loop_inv h1 acc -> forall l, stored h1 (VRef l) -> l <> List.length h.
Proof.
  intros (Hf & Hp & _) l Hl. destruct (Hp _ Hl) as [Hs|(l' & [= <-] & ?)]; [|lia].
  specialize (Hclosed l Hs). lia.
Qed.

(** Assigning to a field of the result object keeps the invariant. *)
Lemma inv_assign h1 acc rs k v x :
  loop_inv h1 acc ->
  h1 !! List.length h = Some (CObj rs) ->
  fields_as m h1 rs acc ->
  snapshot m h1 v = Some x ->
  (stored h v \/ exists l, v = VRef l /\ S (List.length h) <= l < List.length h1) ->
  loop_inv (<[List.length h := CObj (assign rs k v)]> h1) (assign acc k x).
Proof.
  intros Hinv Hr Hrs Hv Hprov.
  pose proof (inv_unref _ _ Hinv) as Hun.
  destruct Hinv as (Hf & Hp & _).
  assert (Hlt : List.length h < List.length h1) by (by eapply lookup_lt_Some).
  assert (Hne : v <> VRef (List.length h)).
  { intros ->. destruct Hprov as [Hs|(l & [= <-] & ?)]; [|lia].
    specialize (Hclosed _ Hs). lia. }
  split; [|split].
  - intros l Hl. rewrite list_lookup_insert_ne by lia. by apply Hf.
  - intros w (l & c & Hl & Hw). rewrite length_insert.
    destruct (decide (l = List.length h)) as [->|Hneq].
    + rewrite list_lookup_insert_eq in Hl by done. injection Hl as <-.
      simpl in Hw. apply elem_of_assign_values in Hw as [Hw| ->]; [|done].
      apply Hp. by exists (List.length h), (CObj rs).
    + rewrite list_lookup_insert_ne in Hl by done. apply Hp. by exists l, c.
  - exists (assign rs k v). split; [by apply list_lookup_insert_eq |].
    apply fields_as_assign.
    + apply (fields_as_stable m h1); [done |]. intros w Hw.
      apply snapshot_insert; [done |].
      intros ->. apply (Hun (List.length h)); [|done].
      by exists (List.length h), (CObj rs).
    + by rewrite snapshot_insert.
Qed.

(** A merge run in between keeps the invariant. *)
Lemma inv_grow h1 h2 acc :
  loop_inv h1 acc -> frame h1 h2 -> prov h1 (List.length h1) h2 ->
  loop_inv h2 acc.
Proof.
  intros (Hf & Hp & rs & Hr & Hrs) Hf12 Hp12.
  assert (Hlt : List.length h < List.length h1) by (by eapply lookup_lt_Some).
  split; [by eapply frame_trans |]. split.
  - intros v Hv. destruct (Hp12 _ Hv) as [Hs|(l & -> & ?)].
    + destruct (Hp _ Hs) as [?|(l & -> & ?)]; [by left |].
      right. exists l. split; [done |]. pose proof (frame_length _ _ Hf12). lia.
    + right. exists l. split; [done | lia].
  - exists rs. split; [by rewrite Hf12 |].
    eapply Forall2_impl; [exact Hrs |]. intros kv kv' [? ?].
    split; [done |]. by eapply snapshot_frame.
Qed.

Lemma snapshot_in_range n h0 l x :
  snapshot n h0 (VRef l) = Some x -> l < List.length h0.
Proof.
  destruct n as [|n]; [done |]. simpl.
  destruct (h0 !! l) eqn:E; [|done]. intros _. by eapply lookup_lt_Some.
Qed.

(** One turn of the loop in the store does what one turn of the loop on
    trees does. *)
Lemma body_ok k dv_h dv h1 acc :
  snapshot m h dv_h = Some dv -> stored h dv_h ->
  loop_inv h1 acc ->
  exists h2, body m (List.length h) (k, dv_h) h1 = Some (tt, h2) /\
             loop_inv h2 (pure_step acc (k, dv)).
Proof.
  intros Hdv Hst Hinv.
  pose proof Hinv as (Hf & Hp & rs & Hr & Hrs).
  assert (Hdv1 : snapshot m h1 dv_h = Some dv) by (by eapply snapshot_frame).
  unfold body, pure_step, Merge.merge_field. simpl.
  unfold get_prop, load, mbind, M_bind, mret, M_ret. rewrite Hr. simpl.
  (* line 15 reads the same in the store and on the tree *)
  assert (Hlv : snapshot m h1 (get rs k) = Some (Js.get acc k)).
  { pose proof (fields_as_own m h1 rs acc k Hrs) as Hown.
    unfold get, Js.get, lookup.
    destruct (own rs k) as [lv_h|].
    - by destruct Hown as (lv & -> & Hlv).
    - rewrite Hown. destruct m; [done |].
      by destruct (String.eqb k "__proto__"),
           (existsb (String.eqb k) Object_prototype_methods). }
  destruct (snapshot_kind _ _ _ _ Hlv) as (Hu & Hn & _ & _).
  destruct (snapshot_kind _ _ _ _ Hdv) as (_ & Hdn & _ & Hdt).
  rewrite Hu, Hn.
  destruct (Js.is_undefined (Js.get acc k) || Js.is_null (Js.get acc k)) eqn:Enull.
  - unfold set_prop, load, store, mbind, M_bind. rewrite Hr. simpl. rewrite Hr.
    eexists. split; [done |]. apply inv_assign; auto.
  - rewrite (isArray_snapshot _ _ _ _ Hdv1), Hdt, Hdn.
    destruct (String.eqb (Js.typeof dv) "object" && negb (Js.is_null dv)
              && negb (Js.isArray dv)) eqn:Eobj.
    + destruct dv as [| | | | | | |dfs]; try discriminate.
      destruct (IH h1 (get rs k) dv_h (Js.get acc k) dfs (inv_closed _ _ Hinv) Hlv Hdv1)
        as (r2 & h2 & Hrun & Hr2 & Hf12 & Hp12 & Hsnap).
      rewrite Hrun.
      pose proof (inv_grow _ _ _ Hinv Hf12 Hp12) as Hinv2.
      pose proof Hinv2 as (_ & _ & rs2 & Hr' & Hrs2).
      assert (Hlt : List.length h < List.length h1) by (by eapply lookup_lt_Some).
      assert (rs2 = rs) as -> by (rewrite Hf12, Hr in Hr' by done; congruence).
      unfold set_prop, load, store, mbind, M_bind. rewrite Hr'. simpl. rewrite Hr'.
      eexists. split; [done |]. apply inv_assign; auto.
      right. exists r2. split; [done |].
      pose proof (snapshot_in_range _ _ _ _ Hsnap). lia.
    + eexists. split; [done | done].
Qed.

(** The loop in the store does what the loop on trees does. *)
Lemma loop_ok ks : forall kps h1 acc,
  fields_as m h ks kps -> (forall v, v ∈ ks.*2 -> stored h v) ->
  loop_inv h1 acc ->
  exists h2, for_each ks (body m (List.length h)) h1 = Some (tt, h2) /\
             loop_inv h2 (fold_left pure_step kps acc).
Proof.
  induction ks as [|[k dv_h] ks IHks]; intros kps h1 acc Hks Hst Hinv.
  - apply Forall2_nil_inv_l in Hks as ->. by exists h1.
  - apply Forall2_cons_inv_l in Hks as ([k' dv] & kps' & [Hk Hdv] & Hks & ->).
    simpl in Hk, Hdv. subst k'.
    destruct (body_ok k dv_h dv h1 acc Hdv) as (h2 & Hrun & Hinv2);
      [apply Hst; by left | done |].
    destruct (IHks kps' h2 (pure_step acc (k, dv)) Hks) as (h3 & Hrun3 & Hinv3);
      [intros v Hv; apply Hst; by right | done |].
    exists h3. split; [|done].
    simpl. unfold mbind, M_bind. by rewrite Hrun.
Qed.

End Loop.

(** A value that stands for a structure of named fields is an object of
    the store, or [Object.prototype]. *)
Lemma snapshot_structure n h D fs :
  snapshot n h D = Some (Js.VObj fs) ->
  exists n' dfields,
    n = S n' /\ own_props D h = Some (dfields, h) /\
    fields_as n' h dfields fs /\
    (forall v, v ∈ dfields.*2 -> stored h v).
Proof.
  destruct n as [|n]; [done |].
  destruct D as [| | | | | | |ld]; try done; intros H.
  - injection H as <-. exists n, []. repeat split; [constructor |].
    intros v Hv. by apply elem_of_nil in Hv.
  - apply snapshot_obj_inv in H as (n' & dfields & [= <-] & Hl & Hf).
    exists n, dfields. unfold own_props, load, mbind, M_bind, mret, M_ret.
    rewrite Hl. repeat split; [done |].
    intros v Hv. by exists ld, (CObj dfields).
Qed.

Lemma fields_as_indexed n h elems xs : forall i,
  Forall2 (fun v x => snapshot n h v = Some x) elems xs ->
  fields_as n h (indexed i elems) (indexed i xs).
Proof.
  intros i H. revert i.
  induction H as [|v x elems xs Hv _ IH]; intros i; simpl; constructor.
  - by split.
  - apply IH.
Qed.

Lemma stored_cell h l c v : h !! l = Some c -> v ∈ (cell_props c).*2 -> stored h v.
Proof. intros Hl Hv. rewrite cell_props_values in Hv. by exists l, c. Qed.

(** What [{ ...loaded }] copies from a value that passes line 8 stands
    for the spread of the tree. *)
Lemma snapshot_spread n h L l :
  snapshot (S n) h L = Some l ->
  negb (Js.truthy l) || negb (String.eqb (Js.typeof l) "object") = false ->
  exists lfields,
    own_props L h = Some (lfields, h) /\
    fields_as n h lfields (Js.spread l) /\
    (forall v, v ∈ lfields.*2 -> stored h v).
Proof.
  intros HL Eu.
  destruct L as [| | | | | | |ll];
    try (simpl in HL; injection HL as <-; simpl in Eu;
         rewrite ?orb_true_r in Eu; discriminate).
  - injection HL as <-. exists []. repeat split; [constructor |].
    intros v Hv. by apply elem_of_nil in Hv.
  - simpl in HL. unfold own_props, load, mbind, M_bind, mret, M_ret.
    destruct (h !! ll) as [[fields|elems]|] eqn:E; [| |done].
    + destruct (mapM _ fields) as [fs|] eqn:Em; [|done]. injection HL as <-.
      eexists. split; [done |]. split; [by apply fields_as_mapM |].
      intros v Hv. by eapply stored_cell.
    + destruct (mapM _ elems) as [xs|] eqn:Em; [|done]. injection HL as <-.
      eexists. split; [done |]. split.
      * simpl. apply fields_as_indexed. by apply mapM_Some.
      * intros v Hv. by eapply stored_cell.
Qed.

(** The own properties of a value are the same in a store that has
    grown. *)
Lemma own_props_frame h c D dfields :
  own_props D h = Some (dfields, h) ->
  own_props D (h ++ [c]) = Some (dfields, h ++ [c]).
Proof.
  destruct D as [| | | | | | |ld]; simpl;
    unfold load, mbind, M_bind, mret, M_ret; try (by intros [= <-]).
  destruct (h !! ld) as [c0|] eqn:E; [|done]. intros [= <-].
  rewrite lookup_app_l by (by eapply lookup_lt_Some). by rewrite E.
Qed.

(** X1.  [Heap.mergeDefaults] refines [Merge.mergeDefaults]: run on a closed
    store in which the loaded value stands for the tree [l] and the
    defaults for the structure [fs], with a budget that covers the depth of
    both, it returns a new object that stands for
    [Merge.mergeDefaults l fs], and leaves every object that existed
    before as it was. *)
Theorem heap_merge_refines n : forall h L D l fs,
  closed h ->
  snapshot n h L = Some l ->
  snapshot n h D = Some (Js.VObj fs) ->
  exists r h',
    mergeDefaults n L D h = Some (VRef r, h') /\ List.length h <= r /\
    frame h h' /\ prov h (List.length h) h' /\
    snapshot n h' (VRef r) = Some (Merge.mergeDefaults l (Js.VObj fs)).
Proof.
  induction n as [|n IHn]; intros h L D l fs Hclosed HL HD; [done |].
  apply snapshot_structure in HD as (n' & dfields & [= <-] & HDp & Hdf & HDs).
  destruct (snapshot_kind _ _ _ _ HL) as (_ & _ & Ht & Hty).
  rewrite mergeDefaults_S, pure_mergeDefaults_obj, Ht, Hty.
  destruct (negb (Js.truthy l) || negb (String.eqb (Js.typeof l) "object")) eqn:Eu.
  - (* line 8 *)
    unfold spread, mbind, M_bind. rewrite HDp.
    unfold alloc, mret, M_ret.
    exists (List.length h), (h ++ [CObj dfields]).
    split; [done |]. split; [done |]. split; [apply frame_alloc |]. split.
    + intros v (l0 & c & Hl0 & Hv).
      destruct (decide (l0 < List.length h)) as [Hlt|Hge].
      * left. rewrite lookup_app_l in Hl0 by done. by exists l0, c.
      * left. assert (l0 = List.length h) as ->.
        { apply lookup_lt_Some in Hl0. rewrite length_app in Hl0. simpl in Hl0. lia. }
        rewrite lookup_app_r, Nat.sub_diag in Hl0 by done. injection Hl0 as <-.
        by apply HDs.
    + apply (snapshot_obj n (h ++ [CObj dfields]) (List.length h) dfields fs);
        [by rewrite lookup_app_r, Nat.sub_diag by done |].
      eapply Forall2_impl; [exact Hdf |]. intros kv kv' [? ?]. split; [done |].
      eapply snapshot_frame; [apply frame_alloc | done].
  - (* the loop *)
    destruct (snapshot_spread _ _ _ _ HL Eu) as (lfields & HLp & HLf & HLs).
    set (h1 := h ++ [CObj lfields]).
    assert (Hinv : loop_inv n h h1 (Js.spread l)).
    { split; [apply frame_alloc |]. split.
      - intros v (l0 & c & Hl0 & Hv). left.
        destruct (decide (l0 < List.length h)) as [Hlt|Hge].
        + unfold h1 in Hl0. rewrite lookup_app_l in Hl0 by done. by exists l0, c.
        + assert (l0 = List.length h) as ->.
          { apply lookup_lt_Some in Hl0. unfold h1 in Hl0.
            rewrite length_app in Hl0. simpl in Hl0. lia. }
          unfold h1 in Hl0.
          rewrite lookup_app_r, Nat.sub_diag in Hl0 by done. injection Hl0 as <-.
          by apply HLs.
      - exists lfields.
        split; [unfold h1; by rewrite lookup_app_r, Nat.sub_diag by done |].
        eapply Forall2_impl; [exact HLf |]. intros kv kv' [? ?]. split; [done |].
        eapply snapshot_frame; [apply frame_alloc | done]. }
    destruct (loop_ok n IHn h Hclosed dfields fs h1 (Js.spread l) Hdf HDs Hinv)
      as (h2 & Hrun & Hinv2).
    assert (HDp1 : own_props D h1 = Some (dfields, h1)).
    { unfold h1. by apply own_props_frame. }
    unfold spread, mbind, M_bind. rewrite HLp.
    unfold alloc. fold h1. rewrite HDp1.
    unfold mbind, M_bind in Hrun. rewrite Hrun.
    unfold mret, M_ret.
    exists (List.length h), h2.
    destruct Hinv2 as (Hf2 & Hp2 & rs2 & Hr2 & Hrs2).
    split; [done |]. split; [done |]. split; [done |]. split.
    + intros v Hv. destruct (Hp2 _ Hv) as [?|(l0 & -> & ?)]; [by left |].
      right. exists l0. split; [done | lia].
    + by apply (snapshot_obj n h2 (List.length h) rs2).
Qed.

(** The test of closedness that computes. *)
Lemma closed_of_bool h : HeapProps.closed h = true -> closed h.
Proof.
  intros Hb l (l0 & c & Hl0 & Hv).
  unfold HeapProps.closed in Hb. rewrite forallb_forall in Hb.
  assert (Hc : In c h) by (apply list_elem_of_In; by eapply list_elem_of_lookup_2).
  specialize (Hb c Hc). rewrite forallb_forall in Hb.
  rewrite <- cell_props_values in Hv.
  apply list_elem_of_fmap in Hv as ([k v] & Hkv & Hin). simpl in Hkv. subst v.
  apply list_elem_of_In in Hin. specialize (Hb _ Hin). simpl in Hb.
  by apply Nat.ltb_lt.
Qed.

(** Defaults [{a: {x: "old"}, b: "B"}] (object 1) and a loaded value
    [{a: {y: "mine"}}] (object 2). *)
Definition sample : heap :=
  [CObj [("x", VStr "old")];
   CObj [("a", VRef 0); ("b", VStr "B")];
   CObj [("a", VRef 3)];
   CObj [("y", VStr "mine")]].

Lemma heap_merge_refines_witness :
  exists r h',
    mergeDefaults 3 (VRef 2) (VRef 1) sample = Some (VRef r, h') /\
    List.length sample <= r /\
    frame sample h' /\ prov sample (List.length sample) h' /\
    snapshot 3 h' (VRef r)
    = Some (Merge.mergeDefaults
              (Js.VObj [("a", Js.VObj [("y", Js.VStr "mine")])])
              (Js.VObj [("a", Js.VObj [("x", Js.VStr "old")]); ("b", Js.VStr "B")])).
Proof.
  apply (heap_merge_refines 3 sample (VRef 2) (VRef 1)).
  - apply closed_of_bool. reflexivity.
  - reflexivity.
  - reflexivity.
Defined.

Example heap_merge_sample :
  (fun rh => snapshot 3 rh.2 rh.1) <$> mergeDefaults 3 (VRef 2) (VRef 1) sample
  = Some (Some (Js.VObj [("a", Js.VObj [("y", Js.VStr "mine"); ("x", Js.VStr "old")]);
                         ("b", Js.VStr "B")])).
Proof. reflexivity. Qed.

End Refine.

(* ===================================================================== *)
(** * More on reconciliation *)
(* ===================================================================== *)

Module MergeMore.
Import Props Js Merge MergeProps.

#[local] Arguments mergeDefaults : simpl never.
#[local] Arguments is_nullish !v /.

(** Induction on a value and, with it, on the values it holds. *)
Lemma value_nested_ind (P : value -> Prop) :
  P VUndefined -> P VNull -> (forall b, P (VBool b)) -> (forall n, P (VNum n)) ->
  (forall s, P (VStr s)) -> (forall name, P (VFun name)) ->
  (forall elems, Forall P elems -> P (VArr elems)) ->
  (forall fields, Forall (fun kv => P kv.2) fields -> P (VObj fields)) ->
  forall v, P v.
Proof.
  intros Hu Hn Hb Hnum Hs Hfun Harr Hobj.
  fix IH 1.
  intros [| |b|n|s|name|elems|fields];
    [apply Hu | apply Hn | apply Hb | apply Hnum | apply Hs | apply Hfun | |].
  - apply Harr. induction elems as [|x elems IHe]; constructor; [apply IH | exact IHe].
  - apply Hobj. induction fields as [|[k v] fields IHf]; constructor;
      [apply IH | exact IHf].
Qed.

Lemma update_same {A} (o : list (string * A)) key v :
  own o key = Some v -> update o key v = o.
Proof.
  induction o as [|[k w] o IH]; simpl; [discriminate |].
  destruct (String.eqb_spec k key) as [->|_].
  - by intros [= ->].
  - intros H. by rewrite IH.
Qed.

Lemma assign_same {A} (o : list (string * A)) key v :
  own o key = Some v -> assign o key v = o.
Proof. intros H. unfold assign. rewrite H. by apply update_same. Qed.

Lemma In_own {A} (o : list (string * A)) key v :
  NoDup (o.*1) -> In (key, v) o -> own o key = Some v.
Proof.
  induction o as [|[k w] o IH]; simpl; [done |].
  intros [Hnotin Hnd]%NoDup_cons [[= -> ->]|Hin].
  - by rewrite String.eqb_refl.
  - destruct (String.eqb_spec k key) as [->|_]; [|by apply IH].
    exfalso. apply Hnotin. apply list_elem_of_fmap. exists (key, v).
    split; [done |]. by apply list_elem_of_In.
Qed.

(** The fields of the merge of [loaded] into a structure. *)
Definition merged_fields (loaded : value) (fields : props) : props :=
  if negb (truthy loaded) || negb (String.eqb (typeof loaded) "object")
  then fields
  else loop fields (spread loaded).

Lemma mergeDefaults_fields loaded fields :
  mergeDefaults loaded (VObj fields) = VObj (merged_fields loaded fields).
Proof. rewrite mergeDefaults_obj. unfold merged_fields. by case_match. Qed.

(** A field of the defaults is in the merge as lines 17-25 leave it, or,
    under a name that [Object.prototype] has, it may not be there at
    all. *)
Lemma own_merged_fields loaded fields k d :
  NoDup (fields.*1) -> own fields k = Some d ->
  (exists lv, own (merged_fields loaded fields) k = Some (reconciled lv d)) \/
  (own (merged_fields loaded fields) k = None /\ inherits k = true /\
   is_plain_object d && negb (String.eqb k "__proto__") = false).
Proof.
  intros Hnd Hk. unfold merged_fields. case_match.
  - left. exists VUndefined. done.
  - destruct (own (spread loaded) k) as [lv|] eqn:Ho.
    + left. eexists. apply own_loop_field; [done | done |]. right. by rewrite Ho.
    + destruct (inherits k) eqn:Hi.
      * rewrite (own_loop_inherited _ _ _ d) by done.
        destruct (is_plain_object d && negb (String.eqb k "__proto__")) eqn:E.
        -- left. exists VUndefined. done.
        -- by right.
      * left. eexists. apply own_loop_field; auto.
Qed.

(** Reconciling again changes nothing, for this structure. *)
Definition stable (d : value) : Prop :=
  match d with
  | VObj _ => forall L, mergeDefaults (mergeDefaults L d) d = mergeDefaults L d
  | _ => True
  end.

(** One turn of the loop on a field that is already as lines 17-25 leave
    it. *)
Lemma merge_field_fixed k d rf lv :
  stable d ->
  own rf k = Some (reconciled lv d) ->
  merge_field (fun x => mergeDefaults x d) k d rf = rf.
Proof.
  intros Hst Hk. unfold merge_field.
  rewrite get_get_own by (right; by rewrite Hk).
  unfold get_own. rewrite Hk. simpl.
  change (is_undefined (reconciled lv d) || is_null (reconciled lv d))
    with (is_nullish (reconciled lv d)).
  unfold reconciled in *.
  destruct (is_nullish lv) eqn:Hlv.
  - destruct d as [| | | | | | |dfs]; simpl; try done; try (by apply assign_same).
    simpl in Hst. specialize (Hst VNull).
    rewrite (merge_unusable VNull dfs) in Hst by done.
    rewrite Hst. by apply assign_same.
  - destruct d as [| | | | | | |dfs].
    1-7: by (rewrite Hlv; simpl; rewrite ?andb_false_r).
    pose proof (mergeDefaults_is_obj lv dfs) as [fs' E].
    rewrite E. simpl. rewrite <- E. simpl in Hst. rewrite Hst.
    by apply assign_same.
Qed.

(** One turn of the loop on a field that lines 17-25 left out. *)
Lemma merge_field_left_out k d rf :
  own rf k = None -> inherits k = true ->
  is_plain_object d && negb (String.eqb k "__proto__") = false ->
  merge_field (fun x => mergeDefaults x d) k d rf = rf.
Proof. intros Ho Hi E. by rewrite merge_field_inherited, E. Qed.

Lemma loop_fixed fields rf :
  (forall k d, In (k, d) fields ->
     merge_field (fun x => mergeDefaults x d) k d rf = rf) ->
  loop fields rf = rf.
Proof.
  induction fields as [|[k d] fields IH]; intros H; simpl; [done |].
  rewrite (H k d) by (by left). apply IH. intros k' d' Hin. apply H. by right.
Qed.

Lemma stable_all d : wf d = true -> stable d.
Proof.
  induction d as [| | | | | | |fields IH] using value_nested_ind; try done.
  intros Hwf L. destruct (wf_obj _ Hwf) as [Hnd Hsub].
  rewrite (mergeDefaults_fields L fields).
  rewrite mergeDefaults_obj. simpl. f_equal.
  apply loop_fixed. intros k d Hin.
  pose proof (In_own _ _ _ Hnd Hin) as Hk.
  destruct (own_merged_fields L fields k d Hnd Hk) as [[lv Hlv]|(Ho & Hi & E)].
  - apply (merge_field_fixed k d _ lv); [|done].
    rewrite Forall_forall in IH. apply (IH (k, d)); [by apply list_elem_of_In |].
    by apply (Hsub k).
  - by apply merge_field_left_out.
Qed.

(** X4.  Reconciliation is idempotent: merging the result of a merge into
    the same defaults once more gives the same result. *)
Theorem merge_idempotent (fields : props) (L : value) :
  wf (VObj fields) = true ->
  mergeDefaults (mergeDefaults L (VObj fields)) (VObj fields)
  = mergeDefaults L (VObj fields).
Proof. intros Hwf. by apply (stable_all (VObj fields)). Qed.

Lemma merge_idempotent_witness :
  mergeDefaults (mergeDefaults (VObj [("tts", VObj [("pitch", VNum 2)]); ("old", VNull)])
                   (VObj [("name", VStr "Aria");
                          ("tts", VObj [("enabled", VBool true); ("pitch", VNum 1)])]))
    (VObj [("name", VStr "Aria");
           ("tts", VObj [("enabled", VBool true); ("pitch", VNum 1)])])
  = mergeDefaults (VObj [("tts", VObj [("pitch", VNum 2)]); ("old", VNull)])
      (VObj [("name", VStr "Aria");
             ("tts", VObj [("enabled", VBool true); ("pitch", VNum 1)])]).
Proof.
  apply (merge_idempotent
           [("name", VStr "Aria");
            ("tts", VObj [("enabled", VBool true); ("pitch", VNum 1)])]).
  vm_compute; reflexivity.
Defined.

(** X5.  Where the defaults hold anything but a structure of named fields
    (a primitive, [null], a sequence) and the loaded value holds something
    other than [null] or [undefined], the loaded value is kept as it is,
    whatever its type: a sequence is never merged element by element. *)
Theorem loaded_value_wins (fields : props) (L : value) (p : list string) (d : value) :
  wf (VObj fields) = true ->
  path (VObj fields) p = Some d ->
  is_plain_object d = false ->
  is_nullish (read L p) = false ->
  path (mergeDefaults L (VObj fields)) p = Some (read L p).
Proof.
  intros Hwf Hd Hplain Hl. destruct p as [|k p]; [by injection Hd as <- |].
  rewrite (path_merge (k :: p) L fields d) by auto.
  unfold reconciled. rewrite Hl. by destruct d.
Qed.

Lemma loaded_value_wins_witness :
  path (mergeDefaults (VObj [("memories", VArr [VStr "first"]); ("name", VNum 7)])
          (VObj [("name", VStr "Aria"); ("memories", VArr [])])) ["memories"]
  = Some (read (VObj [("memories", VArr [VStr "first"]); ("name", VNum 7)])
            ["memories"]).
Proof.
  apply (loaded_value_wins [("name", VStr "Aria"); ("memories", VArr [])]
           (VObj [("memories", VArr [VStr "first"]); ("name", VNum 7)])
           ["memories"] (VArr []));
    vm_compute; reflexivity.
Defined.

(** X21.  What becomes of a default field whose name is that of a method
    of [Object.prototype], when the loaded value is an object or an array
    without a property of that name (and the defaults have no field
    [__proto__]): a default that is a nested structure is copied into the
    result; any other default (a primitive, [null], a sequence) is left
    out, and the result has no field of that name. *)
Theorem method_name_default
    (fields : props) (L : value) (key : string) (d : value) :
  wf (VObj fields) = true ->
  own fields "__proto__" = None ->
  own fields key = Some d ->
  In key Object_prototype_methods ->
  negb (truthy L) || negb (String.eqb (typeof L) "object") = false ->
  own (spread L) key = None ->
  path (mergeDefaults L (VObj fields)) [key]
  = if is_plain_object d then Some d else None.
Proof.
  intros Hwf Hproto Hk Hin Hu Ho. destruct (wf_obj _ Hwf) as [Hnd _].
  assert (Hne : String.eqb key "__proto__" = false).
  { destruct (String.eqb_spec key "__proto__") as [->|]; [congruence | done]. }
  assert (Hi : inherits key = true).
  { unfold inherits. rewrite Hne. cbn [orb]. apply existsb_exists.
    exists key. split; [done | apply String.eqb_refl]. }
  rewrite mergeDefaults_obj, Hu. simpl.
  rewrite (own_loop_inherited _ _ _ d Hnd Hk Ho Hi), Hne, andb_true_r.
  by destruct (is_plain_object d).
Qed.

Lemma method_name_default_witness :
  path (mergeDefaults (VArr [VNum 1])
          (VObj [("name", VStr "Aria"); ("toString", VStr "x")])) ["toString"]
  = if is_plain_object (VStr "x") then Some (VStr "x") else None.
Proof.
  apply (method_name_default [("name", VStr "Aria"); ("toString", VStr "x")]
           (VArr [VNum 1]) "toString" (VStr "x"));
    try reflexivity.
  simpl. tauto.
Defined.

(** The merge has a value at every field path of defaults whose names
    [Object.prototype] does not have. *)
Lemma merge_has_path fields L p d :
  wf (VObj fields) = true -> plain_names (VObj fields) = true ->
  path (VObj fields) p = Some d ->
  exists v, path (mergeDefaults L (VObj fields)) p = Some v.
Proof.
  intros Hwf Hpl Hd. destruct p as [|k p]; [by eexists |].
  rewrite (path_merge (k :: p) L fields d) by auto. eauto.
Qed.

End MergeMore.

(* ===================================================================== *)
(** * More on the initialiser *)
(* ===================================================================== *)

Module LoadMore.
Import Props Js Merge Page Load Persist.

(** What the initialiser returns, by the three sources of lines 41-51. *)
Definition loaded_state (pg : page) (key : string) (initialState : value) : value :=
  if truthy (INITIAL_APP_STATE pg) then
    mergeDefaults (INITIAL_APP_STATE pg) initialState
  else
    match getItem pg key with
    | inr (Some text) =>
        if negb (String.eqb text "") then
          match JSON_parse pg text with
          | inr loadedState => mergeDefaults loadedState initialState
          | inl _ => initialState
          end
        else initialState
    | _ => initialState
    end.

Lemma initializer_state pg key initialState :
  (initializer pg key initialState).2 = inr (loaded_state pg key initialState).
Proof.
  unfold initializer, loaded_state, try_catch, call, throwing, emit,
    mbind, mret, T_bind, T_ret.
  destruct (truthy (INITIAL_APP_STATE pg)); simpl; [done |].
  destruct (getItem pg key) as [e|[text|]]; simpl; try done.
  destruct (negb (String.eqb text "")); simpl; [|done].
  destruct (JSON_parse pg text); simpl; done.
Qed.

Lemma usePersistentState_state pg key initialState :
  exists cw, usePersistentState pg key initialState = Some cw /\
             state cw.1 = loaded_state pg key initialState /\
             log cw.2 = (initializer pg key initialState).1.
Proof.
  unfold usePersistentState. rewrite initializer_state. simpl. eauto.
Qed.

(** X6.  For defaults none of whose field names, at any depth, is the
    name of a member of [Object.prototype]: whatever the page holds (a
    snapshot of any shape, stored text that parses to anything or does
    not parse, a backend that throws), the hook mounts, and its initial
    state has a value at every field path of the caller's defaults. *)
Theorem initial_state_is_complete
    pg key (fields : props) (p : list string) (d : value) :
  wf (VObj fields) = true ->
  plain_names (VObj fields) = true ->
  path (VObj fields) p = Some d ->
  exists cw v, usePersistentState pg key (VObj fields) = Some cw /\
               path (state cw.1) p = Some v.
Proof.
  intros Hwf Hpl Hd.
  destruct (usePersistentState_state pg key (VObj fields)) as (cw & Hcw & Hs & _).
  exists cw. rewrite Hs. unfold loaded_state.
  assert (Hm : forall L, exists v, path (mergeDefaults L (VObj fields)) p = Some v)
    by (intros L; by eapply MergeMore.merge_has_path).
  destruct (truthy (INITIAL_APP_STATE pg)).
  { destruct (Hm (INITIAL_APP_STATE pg)) as [v Hv]. eauto. }
  destruct (getItem pg key) as [e|[text|]]; eauto.
  destruct (negb (String.eqb text "")); eauto.
  destruct (JSON_parse pg text) as [e|L]; eauto.
  destruct (Hm L) as [v Hv]. eauto.
Qed.

Lemma initial_state_is_complete_witness :
  exists cw v,
    usePersistentState Demo.page_bootstrapped "app"
      (VObj [("name", VStr "Aria");
             ("tts", VObj [("enabled", VBool true); ("pitch", VNum 1)])]) = Some cw /\
    path (state cw.1) ["tts"; "pitch"] = Some v.
Proof.
  apply (initial_state_is_complete Demo.page_bootstrapped "app"
           [("name", VStr "Aria");
            ("tts", VObj [("enabled", VBool true); ("pitch", VNum 1)])]
           ["tts"; "pitch"] (VNum 1));
    vm_compute; reflexivity.
Defined.

Lemma initialisation_reads pg key initialState :
  reads (initializer pg key initialState).1
  = if truthy (INITIAL_APP_STATE pg) then [] else [GetItem key].
Proof.
  unfold initializer, try_catch, call, throwing, emit, mbind, mret, T_bind, T_ret.
  destruct (truthy (INITIAL_APP_STATE pg)); simpl; [done |].
  destruct (getItem pg key) as [e|[text|]]; simpl; try done.
  destruct (negb (String.eqb text "")); simpl; [|done].
  destruct (JSON_parse pg text); simpl; done.
Qed.

(** X7.  On every page the initialiser returns rather than throws, writes
    nothing to the backend, shows no alert, and reads the backend at most
    once: not at all when a snapshot is published, once otherwise. *)
Theorem initialisation_is_contained pg key initialState :
  (exists s, (initializer pg key initialState).2 = inr s) /\
  writes (initializer pg key initialState).1 = [] /\
  alerts (initializer pg key initialState).1 = [] /\
  reads (initializer pg key initialState).1
  = if truthy (INITIAL_APP_STATE pg) then [] else [GetItem key].
Proof.
  split; [rewrite initializer_state; eauto |].
  destruct (LoadProps.no_write_no_alert _ (LoadProps.initializer_log pg key initialState))
    as (Hw & Ha & _).
  split; [done |]. split; [done |]. apply initialisation_reads.
Qed.

End LoadMore.

(* ===================================================================== *)
(** * What is saved loads back *)
(* ===================================================================== *)

Module Reload.
Import Props Js Merge Page Load Persist.

#[local] Arguments mergeDefaults : simpl never.

(** A page whose backend holds, under every key, the text [Demo.show]
    gives for [saved], and whose parser reads that text back. *)
Definition page_holding (saved : value) : page :=
  {| INITIAL_APP_STATE := VUndefined;
     getItem := fun _ => inr (Some (Demo.show saved));
     JSON_parse := fun text =>
       if String.eqb text (Demo.show saved) then inr saved
       else inl (Error "SyntaxError");
     JSON_stringify := Demo.show;
     setItem := fun _ _ _ => None |}.

(** X8.  A reconciled state survives a reload: when the backend returns
    the text the hook wrote for a state [s] that came out of a merge into
    the defaults, and that text parses back to [s], the hook mounts with
    [s] as its state. *)
Theorem saved_state_reloads pg key (fields : props) (L : value) :
  wf (VObj fields) = true ->
  truthy (INITIAL_APP_STATE pg) = false ->
  getItem pg key
  = inr (Some (JSON_stringify pg (mergeDefaults L (VObj fields)))) ->
  JSON_stringify pg (mergeDefaults L (VObj fields)) <> "" ->
  JSON_parse pg (JSON_stringify pg (mergeDefaults L (VObj fields)))
  = inr (mergeDefaults L (VObj fields)) ->
  exists cw, usePersistentState pg key (VObj fields) = Some cw /\
             state cw.1 = mergeDefaults L (VObj fields).
Proof.
  intros Hwf Hsnap Hget Hne Hparse.
  destruct (LoadMore.usePersistentState_state pg key (VObj fields)) as (cw & Hcw & Hs & _).
  exists cw. split; [done |]. rewrite Hs. unfold LoadMore.loaded_state.
  rewrite Hsnap, Hget.
  destruct (String.eqb_spec (JSON_stringify pg (mergeDefaults L (VObj fields))) "");
    [done |].
  simpl. rewrite Hparse.
  apply (MergeMore.stable_all (VObj fields) Hwf).
Qed.

Lemma saved_state_reloads_witness :
  exists cw,
    usePersistentState
      (page_holding (mergeDefaults (VObj [("name", VStr "Eve")]) Demo.defaults))
      "app" Demo.defaults = Some cw /\
    state cw.1 = mergeDefaults (VObj [("name", VStr "Eve")]) Demo.defaults.
Proof.
  apply (saved_state_reloads
           (page_holding (mergeDefaults (VObj [("name", VStr "Eve")]) Demo.defaults))
           "app"
           [("name", VStr "Aria");
            ("tts", VObj [("enabled", VBool true); ("pitch", VNum 1)])]
           (VObj [("name", VStr "Eve")])).
  - vm_compute; reflexivity.
  - reflexivity.
  - reflexivity.
  - vm_compute. discriminate.
  - vm_compute; reflexivity.
Defined.

End Reload.

(* ===================================================================== *)
(** * More on debounced persistence *)
(* ===================================================================== *)

Module PersistMore.
Import Js Page Load Persist PersistProps.

#[local] Arguments run_cleanup : simpl never.
#[local] Arguments commit : simpl never.
#[local] Arguments elapse : simpl never.
#[local] Arguments callback : simpl never.

(** X9.  At any moment of the life of a hook at most one timer is pending.
    If one is, the hook is mounted and was never refused a write for lack
    of room, [saveTimeoutRef] holds the handle of that timer, and the timer
    will write the key and the state of the last render. *)
Theorem at_most_one_pending_write pg k initialState cw0 inputs :
  usePersistentState pg k initialState = Some cw0 ->
  let cw := run pg cw0 inputs in
  List.length (timers cw.2) <= 1 /\
  forall t, In t (timers cw.2) ->
    saveTimeoutRef cw.1 = Some (handle t) /\
    saved_key t = key cw.1 /\ saved_state t = state cw.1 /\
    mounted cw.1 = true /\ quotaErrorNotified cw.1 = false.
Proof.
  intros Hmount cw.
  destruct (inv_reachable pg k initialState cw0 inputs Hmount) as [Hp _].
  fold cw in Hp. destruct Hp as [E|(t & E & Hr & Hcl & Hm & Hq & Hk & Hs)];
    rewrite E; simpl.
  - split; [lia | tauto].
  - split; [lia |]. intros t' [<-|[]]. done.
Qed.

Lemma at_most_one_pending_write_witness :
  exists cw0,
    usePersistentState Demo.page_empty "app" Demo.defaults = Some cw0 /\
    let cw := run Demo.page_empty cw0
                [SetState (Value (VObj [("name", VStr "Bea")])); Elapse 10;
                 SetState (Value (VObj [("name", VStr "Cleo")]))] in
    List.length (timers cw.2) <= 1 /\
    forall t, In t (timers cw.2) ->
      saveTimeoutRef cw.1 = Some (handle t) /\
      saved_key t = key cw.1 /\ saved_state t = state cw.1 /\
      mounted cw.1 = true /\ quotaErrorNotified cw.1 = false.
Proof.
  eexists. split; [vm_compute; reflexivity |].
  apply (at_most_one_pending_write Demo.page_empty "app" Demo.defaults).
  vm_compute; reflexivity.
Defined.

Lemma step_rekey pg c w k :
  mounted c = true -> step pg (c, w) (SetKey k) = commit k (state c) (c, w).
Proof. simpl. by intros ->. Qed.

Lemma commit_log k s cw : pending_ok cw.1 cw.2 -> log (commit k s cw).2 = log cw.2.
Proof.
  destruct cw as [c w]. simpl. intros Hp.
  destruct (run_cleanup_clears c w Hp) as (w' & E & Ht & Hlog & _).
  unfold commit. rewrite E. unfold effect. simpl.
  destruct (quotaErrorNotified c); simpl; [done |].
  by rewrite clear_pending_idle.
Qed.

(** X10.  No stale write: whatever happens to a hook, one more input
    either attempts no write, or is time passing and attempts exactly one,
    which carries the key and the state the hook has at that moment. *)
Theorem writes_carry_current_state pg k initialState cw0 inputs i :
  usePersistentState pg k initialState = Some cw0 ->
  let cw := run pg cw0 inputs in
  writes (log (step pg cw i).2) = writes (log cw.2) \/
  exists ms thrown,
    i = Elapse ms /\
    writes (log (step pg cw i).2)
    = writes (log cw.2)
      ++ [SetItem (key cw.1) (JSON_stringify pg (state cw.1)) thrown].
Proof.
  intros Hmount cw.
  destruct (inv_reachable pg k initialState cw0 inputs Hmount) as [Hp _].
  fold cw in Hp. destruct cw as [c w]. simpl in Hp.
  destruct i as [a|k'|ms|].
  - left. simpl. destruct (mounted c); [|done]. by rewrite commit_log.
  - left. simpl. destruct (mounted c); [|done]. by rewrite commit_log.
  - rewrite step_elapse.
    destruct Hp as [E|(t & E & Hr & Hcl & Hm & Hq & Hk & Hs)].
    + left. rewrite elapse_idle by done. by destruct w.
    + destruct (le_lt_dec (due t) (now w + ms)) as [Hle|Hlt].
      * right. exists ms.
        rewrite (elapse_fire pg ms c w t E Hle).
        pose proof (callback_spec pg t c (with_now (now w + ms) (with_timers [] w))) as H.
        cbv zeta in H.
        destruct (callback pg (due t) t _) as [c' w'].
        destruct H as (Hlog & _). simpl in Hlog |- *.
        eexists. split; [done |].
        rewrite Hlog, writes_app. f_equal.
        unfold callback_log. rewrite Hq, Hk, Hs. simpl.
        unfold writes. rewrite filter_cons_True by done. f_equal. by case_match.
      * left. rewrite (elapse_early pg ms c w t E Hlt). by destruct w.
  - left. simpl. destruct (mounted c); [|done].
    destruct (run_cleanup_clears c w Hp) as (w' & E & _ & Hlog & _).
    rewrite E. simpl. by rewrite Hlog.
Qed.

Lemma writes_carry_current_state_witness :
  exists cw0,
    usePersistentState Demo.page_empty "app" Demo.defaults = Some cw0 /\
    let cw := run Demo.page_empty cw0 [SetState (Value (VObj [("name", VStr "Bea")]))] in
    writes (log (step Demo.page_empty cw (Elapse 1000)).2) = writes (log cw.2) \/
    exists ms thrown,
      Elapse 1000 = Elapse ms /\
      writes (log (step Demo.page_empty cw (Elapse 1000)).2)
      = writes (log cw.2)
        ++ [SetItem (key cw.1) (JSON_stringify Demo.page_empty (state cw.1)) thrown].
Proof.
  eexists. split; [vm_compute; reflexivity |].
  apply (writes_carry_current_state Demo.page_empty "app" Demo.defaults).
  vm_compute; reflexivity.
Defined.

(** X11.  No false alarm: at any moment the log holds at most one alert,
    and it holds one exactly when a write was refused for lack of room,
    which is exactly when [quotaErrorNotified] is set. *)
Theorem alert_only_after_quota_refusal pg k initialState cw0 inputs :
  usePersistentState pg k initialState = Some cw0 ->
  let cw := run pg cw0 inputs in
  List.length (alerts (log cw.2)) <= 1 /\
  (alerts (log cw.2) <> [] <-> existsb quota_failure (log cw.2) = true) /\
  quotaErrorNotified cw.1 = existsb quota_failure (log cw.2).
Proof.
  intros Hmount cw.
  destruct (inv_reachable pg k initialState cw0 inputs Hmount) as [_ Hl].
  fold cw in Hl. unfold log_ok in Hl.
  destruct (quotaErrorNotified cw.1).
  - destruct Hl as (_ & Ha & Hf). rewrite Ha, Hf. split; [lia |]. split; [|done].
    split; [done |]. intros _ E. by rewrite E in Ha.
  - destruct Hl as (Ha & Hf). rewrite Ha, Hf. simpl. split; [lia |]. split; [|done].
    split; [done | discriminate].
Qed.

Lemma alert_only_after_quota_refusal_witness :
  exists cw0,
    usePersistentState Demo.page_full "app" Demo.defaults = Some cw0 /\
    let cw := run Demo.page_full cw0 [Elapse 1000; Elapse 1000] in
    List.length (alerts (log cw.2)) <= 1 /\
    (alerts (log cw.2) <> [] <-> existsb quota_failure (log cw.2) = true) /\
    quotaErrorNotified cw.1 = existsb quota_failure (log cw.2).
Proof.
  eexists. split; [vm_compute; reflexivity |].
  apply (alert_only_after_quota_refusal Demo.page_full "app" Demo.defaults).
  vm_compute; reflexivity.
Defined.

(** X12.  A render with another [key] cancels the write that was pending
    for the old key and arms one for the new key: after a quiet window the
    state, unchanged, has been written once, under the new key. *)
Theorem rekey_moves_pending_write pg k initialState cw0 inputs k' quiet :
  usePersistentState pg k initialState = Some cw0 ->
  mounted (run pg cw0 inputs).1 = true ->
  quotaErrorNotified (run pg cw0 inputs).1 = false ->
  delay <= quiet ->
  let cw := run pg cw0 inputs in
  let cw' := run pg cw [SetKey k'; Elapse quiet] in
  key cw'.1 = k' /\ state cw'.1 = state cw.1 /\
  exists thrown,
    writes (log cw'.2)
    = writes (log cw.2) ++ [SetItem k' (JSON_stringify pg (state cw.1)) thrown].
Proof.
  intros Hmount Hm Hq Hquiet cw cw'.
  destruct (inv_reachable pg k initialState cw0 inputs Hmount) as [Hp _].
  fold cw in Hp, Hm, Hq. subst cw'.
  change [SetKey k'; Elapse quiet] with ([SetKey k'] ++ [Elapse quiet]).
  rewrite run_app, !run_one.
  destruct cw as [c w]. simpl in Hp, Hm, Hq.
  rewrite step_rekey, step_elapse by done.
  destruct (commit_arms k' (state c) (c, w)) as (Ha & Hlog & Hnow); [done | done | done |].
  change (now (c, w).2) with (now w) in Ha, Hnow.
  change (log (c, w).2) with (log w) in Hlog.
  rewrite <- Hnow in Ha.
  destruct (armed_late pg quiet _ _ _ _ Ha) as (Hs & _ & _ & thrown & Hw); [lia |].
  destruct (armed_late_flag pg quiet _ _ _ _ Ha) as [Hk _]; [lia |].
  split; [done |]. split; [done |]. exists thrown. by rewrite Hw, Hlog.
Qed.

Lemma rekey_moves_pending_write_witness :
  exists cw0,
    usePersistentState Demo.page_empty "app" Demo.defaults = Some cw0 /\
    let cw := run Demo.page_empty cw0 [Elapse 400] in
    let cw' := run Demo.page_empty cw [SetKey "other"; Elapse 1000] in
    key cw'.1 = "other" /\ state cw'.1 = state cw.1 /\
    exists thrown,
      writes (log cw'.2)
      = writes (log cw.2)
        ++ [SetItem "other" (JSON_stringify Demo.page_empty (state cw.1)) thrown].
Proof.
  eexists. split; [vm_compute; reflexivity |].
  apply (rekey_moves_pending_write Demo.page_empty "app" Demo.defaults _ [Elapse 400]).
  - vm_compute; reflexivity.
  - vm_compute; reflexivity.
  - vm_compute; reflexivity.
  - unfold delay; lia.
Defined.

Lemma reads_app l1 l2 : reads (l1 ++ l2) = reads l1 ++ reads l2.
Proof. apply filter_app. Qed.

Lemma reads_step pg cw i : inv cw -> reads (log (step pg cw i).2) = reads (log cw.2).
Proof.
  destruct cw as [c w]. intros [Hp _]. simpl in Hp.
  destruct i as [a|k'|ms|].
  - simpl. destruct (mounted c); [|done]. by rewrite commit_log.
  - simpl. destruct (mounted c); [|done]. by rewrite commit_log.
  - rewrite step_elapse.
    destruct Hp as [E|(t & E & _)].
    + rewrite elapse_idle by done. by destruct w.
    + destruct (le_lt_dec (due t) (now w + ms)) as [Hle|Hlt].
      * rewrite (elapse_fire pg ms c w t E Hle).
        pose proof (callback_spec pg t c (with_now (now w + ms) (with_timers [] w))) as H.
        cbv zeta in H.
        destruct (callback pg (due t) t _) as [c' w'].
        destruct H as (Hlog & _). simpl in Hlog |- *.
        rewrite Hlog, reads_app.
        assert (E0 : reads (callback_log pg t (quotaErrorNotified c)) = []).
        { unfold callback_log, reads. rewrite filter_cons_False by done. by case_match. }
        by rewrite E0, app_nil_r.
      * rewrite (elapse_early pg ms c w t E Hlt). by destruct w.
  - simpl. destruct (mounted c); [|done].
    destruct (run_cleanup_clears c w Hp) as (w' & E & _ & Hlog & _).
    rewrite E. simpl. by rewrite Hlog.
Qed.

(** X13.  The backend is read during initialisation only: whatever
    happens to the hook afterwards (state replacements, another key, time
    passing, writes that fail), the reads in the log are those of the
    first render, one at most. *)
Theorem backend_read_only_at_mount pg k initialState cw0 inputs :
  usePersistentState pg k initialState = Some cw0 ->
  reads (log (run pg cw0 inputs).2) = reads (log cw0.2) /\
  reads (log cw0.2) = if truthy (INITIAL_APP_STATE pg) then [] else [GetItem k].
Proof.
  intros Hmount. split.
  - pose proof (inv_mount pg k initialState cw0 Hmount) as Hinv.
    clear Hmount. revert cw0 Hinv.
    induction inputs as [|i inputs IH]; intros cw0 Hinv; [done |].
    simpl. rewrite (IH (step pg cw0 i)) by (by apply inv_step).
    by apply reads_step.
  - destruct (LoadMore.usePersistentState_state pg k initialState) as (cw & Hcw & _ & Hlog).
    assert (cw = cw0) as -> by congruence.
    rewrite Hlog. apply LoadMore.initialisation_reads.
Qed.

Lemma backend_read_only_at_mount_witness :
  exists cw0,
    usePersistentState Demo.page_garbled "app" Demo.defaults = Some cw0 /\
    reads (log (run Demo.page_garbled cw0
                  [SetState (Value (VObj [])); SetKey "other"; Elapse 3000]).2)
    = reads (log cw0.2) /\
    reads (log cw0.2)
    = if truthy (INITIAL_APP_STATE Demo.page_garbled) then [] else [GetItem "app"].
Proof.
  eexists. split; [vm_compute; reflexivity |].
  apply (backend_read_only_at_mount Demo.page_garbled "app" Demo.defaults).
  vm_compute; reflexivity.
Defined.

End PersistMore.

(* ===================================================================== *)
(** * Failure containment: the state in memory *)
(* ===================================================================== *)

Module StateProps.
Import Js Page Load Persist PersistProps.

#[local] Arguments callback : simpl never.
#[local] Arguments elapse : simpl never.
#[local] Arguments commit : simpl never.
#[local] Arguments run_cleanup : simpl never.

(** The state replacements a mounted hook receives: those issued before it
    is unmounted. *)
Fixpoint issued (inputs : list input) : list action :=
  match inputs with
  | [] => []
  | SetState a :: rest => a :: issued rest
  | Unmount :: _ => []
  | _ :: rest => issued rest
  end.

Lemma callbacks_keep_state pg ready : forall cw,
  state (fold_left (fun cw t => callback pg (due t) t cw) ready cw).1 = state cw.1 /\
  mounted (fold_left (fun cw t => callback pg (due t) t cw) ready cw).1 = mounted cw.1.
Proof.
  induction ready as [|t ready IH]; intros [c w]; simpl; [done |].
  pose proof (callback_spec pg t c w) as H. cbv zeta in H.
  destruct (callback pg (due t) t (c, w)) as [c' w'] eqn:E.
  destruct H as (_ & _ & _ & _ & _ & Hs & _ & _ & Hm & _). simpl in Hs, Hm.
  destruct (IH (c', w')) as [IHs IHm]. simpl in IHs, IHm.
  rewrite IHs, IHm. done.
Qed.

Lemma elapse_keeps_state pg ms cw :
  state (elapse pg ms cw).1 = state cw.1 /\
  mounted (elapse pg ms cw).1 = mounted cw.1.
Proof.
  destruct cw as [c w]. unfold elapse.
  match goal with |- context [fold_left _ ?ready ?x] =>
    destruct (callbacks_keep_state pg ready x) as [Hs Hm]
  end.
  by rewrite Hs, Hm.
Qed.

Lemma commit_state k s cw :
  state (commit k s cw).1 = s /\ mounted (commit k s cw).1 = mounted cw.1.
Proof.
  destruct cw as [c w]. unfold commit, run_cleanup, effect.
  destruct (cleanup c); simpl; destruct (quotaErrorNotified c); done.
Qed.

Lemma state_after pg inputs : forall cw,
  state (run pg cw inputs).1
  = if mounted cw.1 then replaced (state cw.1) (issued inputs) else state cw.1.
Proof.
  induction inputs as [|i inputs IH]; intros [c w].
  - simpl. by destruct (mounted c).
  - change (run pg (c, w) (i :: inputs)) with (run pg (step pg (c, w) i) inputs).
    rewrite IH. destruct i as [a|k|ms|].
    + simpl. destruct (mounted c) eqn:Hm; simpl; [|by rewrite Hm].
      destruct (commit_state (key c) (next_state a (state c)) (c, w)) as [-> ->].
      simpl. by rewrite Hm.
    + simpl. destruct (mounted c) eqn:Hm; simpl; [|by rewrite Hm].
      destruct (commit_state k (state c) (c, w)) as [-> ->].
      simpl. by rewrite Hm.
    + rewrite step_elapse.
      destruct (elapse_keeps_state pg ms (c, w)) as [-> ->]. done.
    + simpl. destruct (mounted c) eqn:Hm; simpl; [|by rewrite Hm].
      unfold run_cleanup. by destruct (cleanup c).
Qed.

(** X14.  Persistence never touches the state in memory: after any inputs
    the state of the hook is the initial state with the replacements
    issued while it was mounted applied in order, whatever the backend
    does with the writes (accepts them, refuses them for lack of room,
    fails otherwise).  Two pages that load the same state give the same
    state ever after. *)
Theorem state_is_untouched_by_persistence pg k initialState cw0 inputs :
  usePersistentState pg k initialState = Some cw0 ->
  state (run pg cw0 inputs).1 = replaced (state cw0.1) (issued inputs).
Proof.
  intros Hmount. rewrite state_after.
  assert (mounted cw0.1 = true) as ->; [|done].
  unfold usePersistentState in Hmount.
  destruct (initializer pg k initialState).2; [done |]. by injection Hmount as <-.
Qed.

Lemma state_is_untouched_by_persistence_witness :
  exists cw0,
    usePersistentState Demo.page_full "app" Demo.defaults = Some cw0 /\
    state (run Demo.page_full cw0
             [Elapse 1000; SetState (Value (VObj [("name", VStr "Bea")]));
              Elapse 2000]).1
    = replaced (state cw0.1)
        (issued [Elapse 1000; SetState (Value (VObj [("name", VStr "Bea")]));
                 Elapse 2000]).
Proof.
  eexists. split; [vm_compute; reflexivity |].
  apply (state_is_untouched_by_persistence Demo.page_full "app" Demo.defaults).
  vm_compute; reflexivity.
Defined.

End StateProps.

(* ===================================================================== *)
(** * A sequence loaded where a structure is expected *)
(* ===================================================================== *)

Module ArrayProps.
Import Props Js Merge MergeProps.

#[local] Arguments mergeDefaults : simpl never.

Lemma index_key_inj i j : index_key i = index_key j -> i = j.
Proof.
  unfold index_key. intros H.
  apply DecimalNat.Unsigned.to_uint_inj.
  assert (E : NilEmpty.uint_of_string (NilEmpty.string_of_uint (Nat.to_uint i))
              = NilEmpty.uint_of_string (NilEmpty.string_of_uint (Nat.to_uint j)))
    by (by rewrite H).
  rewrite !NilEmpty.usu in E. by injection E.
Qed.

(** An array answers to the name of an index with the element there. *)
Lemma own_indexed {A} (xs : list A) : forall j i,
  own (indexed j xs) (index_key (j + i)) = xs !! i.
Proof.
  induction xs as [|x xs IH]; intros j i; simpl; [done |].
  destruct i as [|i].
  - by rewrite Nat.add_0_r, String.eqb_refl.
  - destruct (String.eqb_spec (index_key j) (index_key (j + S i))) as [E|_].
    + apply index_key_inj in E. lia.
    + replace (j + S i) with (S j + i) by lia. apply IH.
Qed.

Lemma plain_keys_own fields k d :
  plain_keys fields = true -> own fields k = Some d -> inherits k = false.
Proof.
  unfold plain_keys. intros Hall Hk%own_In. rewrite forallb_forall in Hall.
  specialize (Hall (k, d) Hk). by apply negb_true_iff in Hall.
Qed.

(** X15.  A sequence loaded where the defaults are a structure is not
    discarded: the merge holds every element of the sequence under the
    name of its index (unless the defaults have a field of that very
    name), next to the fields of the defaults: where no field name of the
    defaults is the name of a member of [Object.prototype], every field
    of the defaults is a field of the merge, with the default's value
    unless the sequence has an element under that name. *)
Theorem loaded_sequence_becomes_structure (elems : list value) (fields : props) :
  (forall i x,
     elems !! i = Some x -> own fields (index_key i) = None ->
     path (mergeDefaults (VArr elems) (VObj fields)) [index_key i] = Some x) /\
  (wf (VObj fields) = true -> plain_keys fields = true ->
   forall k d,
     own fields k = Some d ->
     is_Some (path (mergeDefaults (VArr elems) (VObj fields)) [k]) /\
     (own (indexed 0 elems) k = None ->
      path (mergeDefaults (VArr elems) (VObj fields)) [k] = Some d)).
Proof.
  split.
  - intros i x Hi Hk. rewrite mergeDefaults_obj. simpl.
    rewrite own_loop_other by done.
    pose proof (own_indexed elems 0 i) as E. simpl in E. by rewrite E, Hi.
  - intros Hwf Hpl k d Hk. destruct (wf_obj _ Hwf) as [Hnd _].
    rewrite mergeDefaults_obj. simpl.
    rewrite (own_loop_field _ _ _ d Hnd Hk)
      by (left; by eapply plain_keys_own).
    split; [done |]. intros Ho. unfold get_own. simpl. by rewrite Ho.
Qed.

Lemma loaded_sequence_becomes_structure_witness :
  path (mergeDefaults (VArr [VStr "a"; VStr "b"]) (VObj [("name", VStr "Aria")]))
    [index_key 1] = Some (VStr "b") /\
  path (mergeDefaults (VArr [VStr "a"; VStr "b"]) (VObj [("name", VStr "Aria")]))
    ["name"] = Some (VStr "Aria").
Proof.
  split.
  - apply (proj1 (loaded_sequence_becomes_structure
                    [VStr "a"; VStr "b"] [("name", VStr "Aria")]) 1 (VStr "b"));
      reflexivity.
  - apply (proj2 (loaded_sequence_becomes_structure
                    [VStr "a"; VStr "b"] [("name", VStr "Aria")])
             eq_refl eq_refl "name" (VStr "Aria") eq_refl).
    reflexivity.
Defined.

(** What was loaded, as far as line 10 copies it. *)
Definition loaded_fields (loaded : value) : props :=
  if negb (truthy loaded) || negb (String.eqb (typeof loaded) "object")
  then []
  else spread loaded.

(** X16.  Where no field name of the defaults is the name of a member of
    [Object.prototype], the merge invents no field and loses none: a name
    is a field of the result exactly when it is a field of the loaded
    value (as far as it is usable) or a field of the defaults. *)
Theorem merged_field_names (fields : props) (L : value) (key : string) :
  wf (VObj fields) = true ->
  plain_keys fields = true ->
  is_Some (path (mergeDefaults L (VObj fields)) [key]) <->
  is_Some (own (loaded_fields L) key) \/ is_Some (own fields key).
Proof.
  intros Hwf Hpl. destruct (wf_obj _ Hwf) as [Hnd _].
  rewrite mergeDefaults_obj. unfold loaded_fields.
  destruct (negb (truthy L) || negb (String.eqb (typeof L) "object")); simpl.
  - destruct (own fields key); simpl; rewrite ?is_Some_alt; tauto.
  - destruct (own fields key) as [d|] eqn:Ek.
    + rewrite (own_loop_field _ _ _ d Hnd Ek)
        by (left; by eapply plain_keys_own).
      rewrite ?is_Some_alt. tauto.
    + rewrite own_loop_other by done.
      destruct (own (spread L) key); rewrite ?is_Some_alt; tauto.
Qed.

Lemma merged_field_names_witness :
  is_Some (path (mergeDefaults (VObj [("z", VNum 9)]) (VObj [("a", VNum 0)])) ["z"]) <->
  is_Some (own (loaded_fields (VObj [("z", VNum 9)])) "z") \/
  is_Some (own [("a", VNum 0)] "z").
Proof.
  apply (merged_field_names [("a", VNum 0)] (VObj [("z", VNum 9)]) "z");
    vm_compute; reflexivity.
Defined.

End ArrayProps.

(* ===================================================================== *)
(** * Properties of the sound-effect player *)
(* ===================================================================== *)

Module AudioProps.
Import Audio.

Definition constructions (l : list event) : list event :=
  filter (fun e => is_construction e = true) l.
Definition successes (l : list event) : list event :=
  filter (fun e => is_success e = true) l.

Lemma play_playSound pf s this :
  exists type frequency duration volume,
    play pf s this = playSound pf type frequency duration volume this.
Proof. destruct s; simpl; eauto 10. Qed.

(** Once initialised, the service is never changed by a call, and never
    calls the constructor. *)
Lemma play_initialized pf s this :
  isInitialized this = true ->
  service (play pf s this) = this /\ constructions (calls (play pf s this)) = [].
Proof.
  intros Hi. destruct (play_playSound pf s this) as (ty & f & d & v & ->).
  unfold playSound, initialize. rewrite Hi. simpl.
  unfold resumeContext. destruct (audioContext this); simpl; [|done].
  unfold constructions. destruct (state pf); simpl; done.
Qed.

Lemma play_all_initialized sounds : forall this,
  isInitialized this = true ->
  (play_all sounds this).1 = this /\ constructions (play_all sounds this).2 = [].
Proof.
  induction sounds as [|[pf s] sounds IH]; intros this Hi; simpl; [done |].
  destruct (play_initialized pf s this Hi) as [Hs Hc]. rewrite Hs.
  destruct (IH this Hi) as [IH1 IH2].
  split; [done |]. unfold constructions in *. by rewrite filter_app, Hc, IH2.
Qed.

(** A call on a service that is not initialised either leaves it so and
    makes no context, or initialises it and makes one context at most. *)
Lemma play_uninitialized pf s this :
  isInitialized this = false -> audioContext this = false ->
  (isInitialized (service (play pf s this)) = false /\
   audioContext (service (play pf s this)) = false /\
   successes (calls (play pf s this)) = []) \/
  (isInitialized (service (play pf s this)) = true /\
   List.length (successes (calls (play pf s this))) <= 1).
Proof.
  intros Hi Ha. destruct (play_playSound pf s this) as (ty & f & d & v & ->).
  destruct this as [a i]. simpl in Hi, Ha. subst a i.
  unfold playSound, initialize, resumeContext, successes. simpl.
  destruct (window_defined pf), (AudioContext_defined pf), (constructor_throws pf),
    (state pf); simpl; try (left; done); right; (split; [done |]); cbn; lia.
Qed.

(** X17.  However many sounds are played, on whatever platform, a service
    makes one [AudioContext] at most; and once it is initialised it never
    calls the constructor again. *)
Theorem one_audio_context_at_most (sounds more : list (platform * sound)) :
  List.length (successes (play_all sounds fresh).2) <= 1 /\
  (isInitialized (play_all sounds fresh).1 = true ->
   constructions (play_all more (play_all sounds fresh).1).2 = []).
Proof.
  split.
  - assert (H : forall this, isInitialized this = false -> audioContext this = false ->
                List.length (successes (play_all sounds this).2) <= 1);
      [|by apply H].
    induction sounds as [|[pf s] sounds IH]; intros this Hi Ha; simpl; [lia |].
    unfold successes in *. rewrite filter_app, length_app.
    destruct (play_uninitialized pf s this Hi Ha) as [(Hi' & Ha' & Hs)|(Hi' & Hs)].
    + unfold successes in Hs. rewrite Hs. simpl. by apply IH.
    + destruct (play_all_initialized sounds _ Hi') as [_ Hc].
      assert (E : filter (fun e => is_success e = true)
                    (play_all sounds (service (play pf s this))).2 = []).
      { unfold constructions in Hc.
        revert Hc. generalize (play_all sounds (service (play pf s this))).2.
        induction l as [|e l IHl]; [done |]. intros Hc.
        destruct e; simpl in Hc |- *;
          try (rewrite filter_cons_False in Hc by done;
               rewrite filter_cons_False by done; by apply IHl).
        by rewrite filter_cons_True in Hc by done. }
      rewrite E. unfold successes in Hs. simpl. lia.
  - intros Hi. by apply play_all_initialized.
Qed.

Lemma one_audio_context_at_most_witness :
  constructions
    (play_all
       [({| window_defined := true; AudioContext_defined := true;
            constructor_throws := false; state := suspended; currentTime := 2 |},
         MessageReceived)]
       (play_all
          [({| window_defined := true; AudioContext_defined := true;
               constructor_throws := true; state := running; currentTime := 0 |},
            MessageSent);
           ({| window_defined := true; AudioContext_defined := true;
               constructor_throws := false; state := running; currentTime := 1 |},
            MessageSent)]
          fresh).1).2 = [].
Proof.
  apply (proj2 (one_audio_context_at_most
    [({| window_defined := true; AudioContext_defined := true;
         constructor_throws := true; state := running; currentTime := 0 |},
      MessageSent);
     ({| window_defined := true; AudioContext_defined := true;
         constructor_throws := false; state := running; currentTime := 1 |},
      MessageSent)]
    [({| window_defined := true; AudioContext_defined := true;
         constructor_throws := false; state := suspended; currentTime := 2 |},
      MessageReceived)])).
  reflexivity.
Defined.

(** X18.  If the platform has a [window] but no [AudioContext] when the
    first sound is played, the service is initialised without a context
    and stays silent: it calls nothing on the platform, then or for any
    sound played later, whatever the platform offers by then. *)
Theorem silent_without_audio_context pf s (rest : list (platform * sound)) :
  window_defined pf = true ->
  AudioContext_defined pf = false ->
  (play_all ((pf, s) :: rest) fresh).2 = [].
Proof.
  intros Hw Ha.
  assert (Hfirst : play pf s fresh
                   = {| service := {| audioContext := false; isInitialized := true |};
                        calls := []; threw := false |}).
  { destruct (play_playSound pf s fresh) as (ty & f & d & v & ->).
    unfold playSound, initialize. simpl. by rewrite Hw, Ha. }
  simpl. rewrite Hfirst. simpl.
  induction rest as [|[pf' s'] rest IH]; simpl; [done |].
  assert (Hnext : play pf' s' {| audioContext := false; isInitialized := true |}
                  = {| service := {| audioContext := false; isInitialized := true |};
                       calls := []; threw := false |}).
  { destruct (play_playSound pf' s' {| audioContext := false; isInitialized := true |})
      as (ty & f & d & v & ->). done. }
  rewrite Hnext. simpl. exact IH.
Qed.

Lemma silent_without_audio_context_witness :
  (play_all
     (({| window_defined := true; AudioContext_defined := false;
          constructor_throws := false; state := running; currentTime := 0 |},
       MessageSent)
      :: [({| window_defined := true; AudioContext_defined := true;
              constructor_throws := false; state := running; currentTime := 1 |},
           MessageReceived)])
     fresh).2 = [].
Proof.
  apply (silent_without_audio_context
           {| window_defined := true; AudioContext_defined := false;
              constructor_throws := false; state := running; currentTime := 0 |}
           MessageSent); reflexivity.
Defined.

End AudioProps.

(* ===================================================================== *)
(** * Properties of the journal entry *)
(* ===================================================================== *)

Module JournalProps.
Import Page Journal.

Lemma slice_last_app {A} (older recent : list A) n :
  List.length recent = n -> slice_last n (older ++ recent) = recent.
Proof.
  intros <-. unfold slice_last. rewrite length_app.
  replace (List.length older + List.length recent - List.length recent)
    with (List.length older) by lia.
  by rewrite drop_app_length.
Qed.

(** X19.  The journal entry depends on the five most recent messages only:
    whatever was said before them, the request sent to the model, and so
    the entry returned, are the same. *)
Theorem journal_reads_last_five (ai : option client) (who : string)
    (older recent : list Message) :
  List.length recent = 5 ->
  contents {| name := who; chatHistory := older ++ recent |}
  = contents {| name := who; chatHistory := recent |} /\
  generateJournalEntry ai {| name := who; chatHistory := older ++ recent |}
  = generateJournalEntry ai {| name := who; chatHistory := recent |}.
Proof.
  intros Hlen.
  assert (E : contents {| name := who; chatHistory := older ++ recent |}
              = contents {| name := who; chatHistory := recent |}).
  { unfold contents, history. simpl.
    pose proof (slice_last_app [] recent 5 Hlen) as E0. simpl in E0.
    by rewrite (slice_last_app older recent 5 Hlen), E0. }
  split; [done |]. unfold generateJournalEntry. by rewrite E.
Qed.

Lemma journal_reads_last_five_witness :
  contents {| name := "Aria";
              chatHistory := [{| text := "zero" |}]
                ++ [{| text := "one" |}; {| text := "two" |}; {| text := "three" |};
                    {| text := "four" |}; {| text := "five" |}] |}
  = contents {| name := "Aria";
                chatHistory := [{| text := "one" |}; {| text := "two" |};
                                {| text := "three" |}; {| text := "four" |};
                                {| text := "five" |}] |} /\
  generateJournalEntry None
    {| name := "Aria";
       chatHistory := [{| text := "zero" |}]
         ++ [{| text := "one" |}; {| text := "two" |}; {| text := "three" |};
             {| text := "four" |}; {| text := "five" |}] |}
  = generateJournalEntry None
      {| name := "Aria";
         chatHistory := [{| text := "one" |}; {| text := "two" |};
                         {| text := "three" |}; {| text := "four" |};
                         {| text := "five" |}] |}.
Proof.
  apply (journal_reads_last_five None "Aria" [{| text := "zero" |}]). reflexivity.
Defined.

End JournalProps.
